(** * governator: the supervision daemon (daemon.go)

    A shallow embedding of the service registry, the configuration watcher,
    the control-protocol dispatcher and the startup/shutdown coordinator of
    [daemon.go], together with the properties the specification states
    about them.

    Conventions of the embedding:
    - a [*Service] is an address into a heap of service objects; the
      registry [services.list] is a list of such addresses, so that the
      aliasing between the registry, the local variables [s], [v], [st] of
      the handlers and the captured task arguments is the one of the code;
    - every effect on the outside world (a call of [Service.Start] or
      [Service.Stop], a framed response written to a connection, a line of
      the daemon's own log, a call of [Sort]) is appended to a trace;
    - code that lives outside [daemon.go] (the service state machine, the
      codec, the configuration loader, library formatting) is a member of
      the class [Collaborators]; its answers may depend on the logical
      time at which it is called. *)

From Stdlib Require Import ZArith Lia Sorted Permutation.
From stdpp Require Import base tactics option list strings sorting pretty.

Local Open Scope Z_scope.

(** * The embedding of [daemon.go] *)

(** ** Data model *)

Definition error := string.

Definition time := Z.

Definition ptr := nat.

(** Modelled from the spec: the type [State] and its constants are
    declared in service.go, which is not part of the sources at hand. The
    five named constants are the states of the state machine; [StateOther]
    stands for every other value the type can hold, which is what the
    [default] branch of the [list] command is written for. *)
Inductive state :=
| StateStopped
| StateStarting
| StateStarted
| StateStopping
| StateFailed
| StateOther (raw : Z).

Global Instance state_eq_dec : EqDecision state.
Proof. solve_decision. Defined.

(** Modelled from the spec: the [Config] struct is declared in config.go,
    which is not part of the sources at hand. The specification lists its
    contents: source file identifier, priority, service name and the process
    launch parameters, opaque to the daemon. [daemon.go] itself reads
    [File], [Priority] and [ServiceName()]. *)
Record config := {
  File : string;
  Priority : Z;
  ServiceName : string;
  Launch : list string
}.

Global Instance config_eq_dec : EqDecision config.
Proof. solve_decision. Defined.

(** Modelled from the spec: the struct [Service] is declared in
    service.go. These are the fields that [daemon.go] reads and writes.
    [monitor] is [logger.monitor]: the callback installed by the [log]
    command, a closure over the connection it writes to, represented by
    that connection's descriptor. *)
Record service := {
  Config : config;
  State : state;
  Started : time;
  Restarts : Z;
  Err : error;
  monitor : option nat
}.

Global Instance service_eq_dec : EqDecision service.
Proof. solve_decision. Defined.

(** Modelled from the spec: [newService] is declared in service.go; a new
    service is constructed in [Stopped], with no restarts, no error and no
    log subscriber. *)
Definition newService (cfg : config) : service :=
  {| Config := cfg; State := StateStopped; Started := 0; Restarts := 0;
     Err := ""; monitor := None |}.

Global Instance service_inhabited : Inhabited service :=
  populate (newService {| File := ""; Priority := 0; ServiceName := "";
                          Launch := [] |}).

(** Modelled from the spec: [Service.Name()], declared in service.go, is
    the service name derived from the configuration. *)
Definition Name (s : service) : string := ServiceName (Config s).

Definition with_Config (cfg : config) (s : service) : service :=
  {| Config := cfg; State := State s; Started := Started s;
     Restarts := Restarts s; Err := Err s; monitor := monitor s |}.

Definition with_monitor (m : option nat) (s : service) : service :=
  {| Config := Config s; State := State s; Started := Started s;
     Restarts := Restarts s; Err := Err s; monitor := m |}.

(** ** [servicesByPriority]: the stable sort of the registry *)

Section servicesByPriority.
Context {A : Type} (key : A → Z).

(** [Less(i, j)]: [s[i].Config.Priority < s[j].Config.Priority]. *)
Definition Less (x y : A) : bool := bool_decide (key x < key y).

(** One pass of the insertion loop of [sort.Stable]: the new element
    moves left while it is [Less] than its predecessor, so on a sorted
    prefix it settles after every element that is not greater. *)
Fixpoint settle (x : A) (l : list A) : list A :=
  match l with
  | [] => [x]
  | y :: l' => if Less x y then x :: y :: l' else y :: settle x l'
  end.

(** [sort.Stable(s)]. The library routine is a block-wise insertion sort
    followed by stable merges; the result of a stable sort is determined
    by its input, so it is modelled by the insertion sort alone. *)
Definition Stable (l : list A) : list A :=
  foldl (λ acc x, settle x acc) [] l.

End servicesByPriority.

(** ** The world of the daemon *)

Inductive tag := respOk | respErr | respEnd.

Global Instance tag_eq_dec : EqDecision tag.
Proof. solve_decision. Defined.

(** What the daemon does to its surroundings, in the order it does it. *)
Inductive event :=
| CallStart (p : ptr) (r : option error)   (* p.Start() returned r *)
| CallStop (p : ptr) (r : option error)    (* p.Stop() returned r *)
| CallSort                                 (* servicesByPriority(list).Sort() *)
| Go (p : ptr)                             (* a stop task dispatched for p *)
| Debugf (msg : string)
| Errorf (msg : string)
| Response (fd : nat) (t : tag) (msg : string) (r : option error).

Global Instance event_eq_dec : EqDecision event.
Proof. solve_decision. Defined.

(** [services.list] and the service objects it points to. A service is
    allocated once, by [newService], and its address never changes. *)
Record world := {
  heap : list service;
  services_list : list ptr;
  trace : list event
}.

(** Logical time: the number of effects performed so far. *)
Definition clock (w : world) : nat := length (trace w).

(** An fsnotify event: the path it names and the kind predicates the
    watcher tests. *)
Record FileEvent := {
  ev_Name : string;
  IsCreate : bool;
  IsDelete : bool;
  IsRename : bool;
  IsModify : bool
}.

(** A control connection: its descriptor, what [decodeArgs] reads from it,
    and, for a [log] subscription, the lines (source prefix and bytes) the
    service's logger hands to the subscriber before the client ends the
    stream. *)
Record conn := {
  fd : nat;
  decodeArgs : error + list string;
  delivered : list (string * list Byte.byte)
}.

(** Everything [daemon.go] calls but does not define. [Start] and [Stop]
    return the service object as the call leaves it and the error, if any;
    [written] is the error returned by the write that [encodeResponse]
    performs. The first argument of these three is the logical time of the
    call, so that two calls need not behave alike. *)
Class Collaborators := {
  Start : nat → service → service * option error;
  Stop : nat → service → service * option error;
  written : nat → option error;
  ToLower : string → string;
  filepath_Base : string → string;
  shouldIgnoreFile : string → bool;
  FileEvent_String : FileEvent → string;
  formatTime : time → string;
  tabwriter : string → string;
  newLine : list Byte.byte;
  help : string
}.

(** The configuration of a service is replaced by the daemon only: neither
    [Start] nor [Stop] writes it. *)
Class ConfigImmutable `{Collaborators} : Prop := {
  Start_Config t s : Config (Start t s).1 = Config s;
  Stop_Config t s : Config (Stop t s).1 = Config s
}.

(** ** State passing *)

Definition St (A : Type) : Type := world → A * world.

Global Instance St_ret : MRet St := λ A a w, (a, w).

Global Instance St_bind : MBind St := λ A B f m w, let '(a, w') := m w in f a w'.

Global Instance St_fmap : FMap St := λ A B f m w, let '(a, w') := m w in (f a, w').

Definition nl : string := String (Ascii.ascii_of_nat 10) "".

Definition tab : string := String (Ascii.ascii_of_nat 9) "".

Definition emit (e : event) : St unit := λ w,
  ((), {| heap := heap w; services_list := services_list w;
          trace := trace w ++ [e] |}).

Definition deref (p : ptr) : St service := λ w, (heap w !!! p, w).

Definition assign (p : ptr) (s : service) : St unit := λ w,
  ((), {| heap := <[p := s]> (heap w); services_list := services_list w;
          trace := trace w |}).

Definition alloc (s : service) : St ptr := λ w,
  (length (heap w),
   {| heap := heap w ++ [s]; services_list := services_list w;
      trace := trace w |}).

Definition get_list : St (list ptr) := λ w, (services_list w, w).

Definition set_list (l : list ptr) : St unit := λ w,
  ((), {| heap := heap w; services_list := l; trace := trace w |}).

(** The priority a registry entry is compared by. *)
Definition priority (h : list service) (p : ptr) : Z :=
  Priority (Config (h !!! p)).

(** [servicesByPriority(services.list).Sort()] *)
Definition Sort_services : St unit := λ w,
  ((), {| heap := heap w;
          services_list := Stable (priority (heap w)) (services_list w);
          trace := trace w ++ [CallSort] |}).

Section daemon.
Context `{Collaborators}.

Definition call_Start (p : ptr) : St (option error) := λ w,
  let '(s, r) := Start (clock w) (heap w !!! p) in
  (r, {| heap := <[p := s]> (heap w); services_list := services_list w;
         trace := trace w ++ [CallStart p r] |}).

Definition call_Stop (p : ptr) : St (option error) := λ w,
  let '(s, r) := Stop (clock w) (heap w !!! p) in
  (r, {| heap := <[p := s]> (heap w); services_list := services_list w;
         trace := trace w ++ [CallStop p r] |}).

Definition encodeResponse (c : conn) (t : tag) (msg : string)
  : St (option error) := λ w,
  let r := written (clock w) in
  (r, {| heap := heap w; services_list := services_list w;
         trace := trace w ++ [Response (fd c) t msg r] |}).

(** *** [startWatching]: the handling of one event *)

(** [case ev.IsCreate()] *)
Definition on_create (ParseConfig : string → config) (name : string)
  : St unit :=
  let cfg := ParseConfig name in
  emit (Debugf ("added service " +:+ ServiceName cfg));;
  s ← alloc (newService cfg);
  l ← get_list;
  set_list (l ++ [s]);;
  Sort_services;;
  call_Start s;;
  mret ().

(** [case ev.IsDelete() || ev.IsRename()]: the loop over the indices of
    the registry, [todo] iterations being left, which ends at the first
    entry of the file. *)
Fixpoint on_delete (name : string) (ii todo : nat) : St unit :=
  match todo with
  | O => mret ()
  | S todo' =>
    l ← get_list;
    let p := l !!! ii in
    s ← deref p;
    if decide (File (Config s) = name) then
      emit (Debugf ("removed service " +:+ Name s));;
      (if decide (State s = StateStarted) then call_Stop p;; mret ()
       else mret ());;
      l ← get_list;
      set_list (take ii l ++ drop (S ii) l)
    else on_delete name (S ii) todo'
  end.

(** [case ev.IsModify()]: the loop over the registry entries [vs], which
    ends at the first entry of the file. *)
Fixpoint on_modify (ParseConfig : string → config) (name : string)
  (vs : list ptr) : St unit :=
  match vs with
  | [] => mret ()
  | v :: vs' =>
    s ← deref v;
    if decide (File (Config s) = name) then
      let cfg := ParseConfig name in
      if decide (Config s = cfg) then mret ()
      else
        emit (Debugf ("changed service " +:+ Name s +:+ "'s configuration"));;
        start ← (if decide (State s = StateStarted)
                 then r ← call_Stop v; mret (bool_decide (r = None))
                 else mret false);
        s ← deref v;
        assign v (with_Config cfg s);;
        Sort_services;;
        if start : bool then call_Start v;; mret () else mret ()
    else on_modify ParseConfig name vs'
  end.

(** The body of [case ev := <-watcher.Event]. The registry is locked from
    the [switch] to its end. *)
Definition on_event (ParseConfig : string → config) (ev : FileEvent)
  : St unit :=
  let name := filepath_Base (ev_Name ev) in
  if shouldIgnoreFile name then mret ()
  else if IsCreate ev then on_create ParseConfig name
  else if IsDelete ev || IsRename ev then
    l ← get_list; on_delete name 0 (length l)
  else if IsModify ev then
    l ← get_list; on_modify ParseConfig name l
  else emit (Errorf ("unhandled event: " +:+ FileEvent_String ev +:+ nl)).

(** What the watcher goroutine receives in one turn of its loop: an event,
    together with the configuration loader as the directory stands at that
    moment, or an error of the watcher itself. *)
Inductive delivery :=
| FromEvent (ParseConfig : string → config) (ev : FileEvent)
| FromError (err : error).

Definition on_delivery (d : delivery) : St unit :=
  match d with
  | FromEvent ParseConfig ev => on_event ParseConfig ev
  | FromError err => emit (Errorf ("error watching: " +:+ err))
  end.

Fixpoint watch (ds : list delivery) : St unit :=
  match ds with
  | [] => mret ()
  | d :: ds' => on_delivery d;; watch ds'
  end.

(** *** [daemonMain]: population of the registry at startup *)

(** The loop over [configs]. The slice is created with one slot per
    configuration and slot [ii] is filled in turn [ii], so that it grows
    here by one entry per turn. *)
Fixpoint populate_services (configs : list config) : St unit :=
  match configs with
  | [] => mret ()
  | v :: configs' =>
    s ← alloc (newService v);
    l ← get_list;
    set_list (l ++ [s]);;
    call_Start s;;
    populate_services configs'
  end.

(** From [services.Lock()] to [services.Unlock()] at startup. *)
Definition daemonMain_boot (configs : list config) : St unit :=
  set_list [];;
  populate_services configs;;
  Sort_services.

(** *** [daemonMain]: stopping every service at shutdown *)

(** The loop [for ii := len(services.list) - 1; ii >= 0; ii--] that hands
    one stop task per entry to a goroutine. *)
Fixpoint dispatch_stops (l : list ptr) (ii : nat) : St unit :=
  match ii with
  | O => mret ()
  | S ii' => emit (Go (l !!! ii'));; dispatch_stops l ii'
  end.

(** The stop tasks that run to completion, in the order the scheduler
    completes them: each calls [Stop] and then [wg.Done()]. A task may run
    as soon as it is dispatched; [Stop] acts on its receiver only, so that
    letting the dispatches come first loses no behaviour. *)
Fixpoint run_stops (completed : list ptr) (wg : nat) : St nat :=
  match completed with
  | [] => mret wg
  | s :: completed' => call_Stop s;; run_stops completed' (pred wg)
  end.

(** From [services.Lock()] to the end of [daemonMain]: the answer is
    whether [wg.Wait()] returns, which it does when the counter is zero. *)
Definition daemonMain_shutdown (completed : list ptr) : St bool :=
  l ← get_list;
  let wg := length l in
  dispatch_stops l (length l);;
  wg ← run_stops completed wg;
  if bool_decide (wg = 0%nat)
  then emit (Debugf "daemon exiting");; mret true
  else mret false.

(** *** The control protocol *)

(** How a call of [serveConn] ends: it returns an error or [nil], or the
    process panics. *)
Inductive reply :=
| Return (err : option error)
| Panic (msg : string).

Definition startService (c : conn) (s : ptr) : St (option error) :=
  name ← Name <$> deref s;
  encodeResponse c respOk ("starting " +:+ name +:+ nl);;
  serr ← call_Start s;
  match serr with
  | Some e =>
    encodeResponse c respErr
      ("error starting " +:+ name +:+ ": " +:+ e +:+ nl)
  | None => encodeResponse c respOk ("started " +:+ name +:+ nl)
  end.

Definition stopService (c : conn) (s : ptr) : St (bool * option error) :=
  name ← Name <$> deref s;
  encodeResponse c respOk ("stopping " +:+ name +:+ nl);;
  serr ← call_Stop s;
  match serr with
  | Some e =>
    err ← encodeResponse c respErr
            ("error stopping " +:+ name +:+ ": " +:+ e +:+ nl);
    mret (false, err)
  | None =>
    err ← encodeResponse c respOk ("stopped " +:+ name +:+ nl);
    mret (true, err)
  end.

(** The lookup loop [for _, v := range services.list]: the first entry
    whose name is [arg], with that name. *)
Fixpoint find_service (arg : string) (vs : list ptr)
  : St (option (ptr * string)) :=
  match vs with
  | [] => mret None
  | v :: vs' =>
    sn ← Name <$> deref v;
    if decide (sn = arg) then mret (Some (v, sn))
    else find_service arg vs'
  end.

Definition needs_service (cmd : string) : bool :=
  bool_decide (cmd = "start") || bool_decide (cmd = "stop") ||
  bool_decide (cmd = "restart") || bool_decide (cmd = "log").

(** The first part of [serveConn]: argument count and name lookup for the
    commands that act on one service. It yields the values of the locals
    [cmd], [st] and [name] as the [switch] finds them. *)
Definition resolve (c : conn) (args : list string) (cmd : string)
  : St (string * option ptr * string) :=
  if needs_service cmd then
    if decide (length args ≠ 2%nat) then
      encodeResponse c respErr
        ("command " +:+ cmd +:+ " requires exactly one argument" +:+ nl);;
      mret ("", None, "")
    else
      l ← get_list;
      found ← find_service (args !!! 1%nat) l;
      match found with
      | Some (st, name) => mret (cmd, Some st, name)
      | None =>
        encodeResponse c respErr
          ("no service named " +:+ args !!! 1%nat +:+ nl);;
        mret ("", None, "")
      end
  else mret (cmd, None, "").

(** The status column of [list]; [None] is the [panic] of the [default]
    branch. *)
Definition status (v : service) : option string :=
  match State v with
  | StateStopped => Some "STOPPED"
  | StateStopping => Some "STOPPING"
  | StateStarting => Some "STARTING"
  | StateStarted =>
    if decide (Restarts v > 0) then
      Some ("RUNNING since " +:+ formatTime (Started v) +:+ " - " +:+
            pretty (Restarts v) +:+ " restarts")
    else Some ("RUNNING since " +:+ formatTime (Started v))
  | StateFailed => Some ("FAILED - " +:+ Err v)
  | StateOther _ => None
  end.

(** The loop of [list] over the registry, writing to the tabwriter
    whose pending text is [w]. *)
Fixpoint list_rows (h : list service) (vs : list ptr) (w : string)
  : option string :=
  match vs with
  | [] => Some w
  | v :: vs' =>
    let w := w +:+ Name (h !!! v) +:+ tab in
    match status (h !!! v) with
    | None => None
    | Some text => list_rows h vs' (w +:+ text +:+ tab +:+ nl)
    end
  end.

(** The subscriber installed by [log]: [None] is the run-time panic of
    [b[len(b)-1]] on an empty slice. *)
Definition log_monitor (c : conn) (prefix : string) (b : list Byte.byte)
  : St (option unit) :=
  let buf := String.list_byte_of_string ("[" +:+ prefix +:+ "] ") ++ b in
  match last b with
  | None => mret None
  | Some x =>
    let buf := if negb (Byte.eqb x Byte.x0a) then buf ++ newLine else buf in
    encodeResponse c respOk (String.string_of_list_byte buf);;
    mret (Some ())
  end.

(** The lines the logger hands to the subscriber while [serveConn] waits
    for the client to end the stream. *)
Fixpoint log_stream (c : conn) (lines : list (string * list Byte.byte))
  : St (option unit) :=
  match lines with
  | [] => mret (Some ())
  | (prefix, b) :: lines' =>
    r ← log_monitor c prefix b;
    match r with
    | None => mret None
    | Some _ => log_stream c lines'
    end
  end.

Definition set_monitor (p : ptr) (m : option nat) : St unit :=
  s ← deref p; assign p (with_monitor m s).

Definition nil_dereference : reply :=
  Panic "invalid memory address or nil pointer dereference".

(** The [switch cmd] of [serveConn]. [None] means that control reaches
    the final [encodeResponse(conn, respEnd, "")]; [Some r] that
    [serveConn] ends with [r] before it. *)
Definition command (c : conn) (cmd : string) (st : option ptr)
  (name : string) : St (option reply) :=
  if decide (cmd = "") then mret None
  else if decide (cmd = "start") then
    match st with
    | None => mret (Some nil_dereference)
    | Some st =>
      s ← deref st;
      (if decide (State s = StateStarted) then
         encodeResponse c respErr (name +:+ " is already running" +:+ nl)
       else startService c st);;
      mret None
    end
  else if decide (cmd = "stop") then
    match st with
    | None => mret (Some nil_dereference)
    | Some st =>
      s ← deref st;
      (if decide (State s ≠ StateStarted) then
         encodeResponse c respErr (name +:+ " is not running" +:+ nl)
       else snd <$> stopService c st);;
      mret None
    end
  else if decide (cmd = "restart") then
    match st with
    | None => mret (Some nil_dereference)
    | Some st =>
      s ← deref st;
      stopped ← (if decide (State s = StateStarted)
                 then fst <$> stopService c st
                 else mret false);
      (if stopped : bool then startService c st;; mret () else mret ());;
      mret None
    end
  else if decide (cmd = "list") then
    l ← get_list;
    rows ← (λ w, (list_rows (heap w) l ("SERVICE" +:+ tab +:+ "STATUS"
                                         +:+ tab +:+ nl), w));
    match rows with
    | None => mret (Some (Panic "invalid state"))
    | Some text =>
      encodeResponse c respOk (tabwriter text +:+ nl);;
      mret None
    end
  else if decide (cmd = "log") then
    match st with
    | None => mret (Some nil_dereference)
    | Some st =>
      s ← deref st;
      if decide (State s ≠ StateStarted) then
        encodeResponse c respErr (name +:+ " is not running" +:+ nl);;
        mret None
      else if decide (monitor s ≠ None) then
        encodeResponse c respErr
          (name +:+ " is already being monitored" +:+ nl);;
        mret None
      else
        set_monitor st (Some (fd c));;
        r ← log_stream c (delivered c);
        match r with
        | None => mret (Some (Panic "index out of range"))
        | Some _ => set_monitor st None;; mret (Some (Return None))
        end
    end
  else
    err ← encodeResponse c respErr
            ("unknown command " +:+ cmd +:+ " - " +:+ help +:+ nl);
    match err with
    | Some e => mret (Some (Return (Some e)))
    | None => mret None
    end.

Definition serveConn (c : conn) : St reply :=
  match decodeArgs c with
  | inl err => mret (Return (Some ("error decoding arguments: " +:+ err)))
  | inr [] => Return <$> encodeResponse c respEnd ""
  | inr (a :: args) =>
    '(cmd, st, name) ← resolve c (a :: args) (ToLower a);
    r ← command c cmd st name;
    match r with
    | Some r => mret r
    | None => Return <$> encodeResponse c respEnd ""
    end
  end.

End daemon.

(** ** Runs of the daemon *)

Definition initial : world :=
  {| heap := []; services_list := []; trace := [] |}.

(** What happens to the registry between startup and shutdown: the watcher
    handles a delivery, under the registry lock, or a connection is
    served. *)
Inductive step :=
| Deliver (d : delivery)
| Serve (c : conn).

Section runs.
Context `{Collaborators}.

Definition do_step (s : step) (w : world) : world :=
  match s with
  | Deliver d => (on_delivery d w).2
  | Serve c => (serveConn c w).2
  end.

Definition run (steps : list step) (w : world) : world :=
  foldl (λ w s, do_step s w) w steps.

(** The world when [daemonMain] releases the lock after startup. *)
Definition booted (configs : list config) : world :=
  (daemonMain_boot configs initial).2.

End runs.

(** ** The goroutines and the quit handshake *)

(** Where [daemonMain] stands from the wait for a signal on. *)
Inductive main_pc :=
| AtSignal          (* <-c *)
| AtSendWatcher     (* quitWatcher.sendStop() *)
| AtSendServer      (* quitServer.sendStop() *)
| AtRecvWatcher     (* <-quitWatcher.stopped *)
| AtRecvServer      (* <-quitServer.stopped *)
| AtLock.           (* both acknowledgments received: services.Lock() *)

Global Instance main_pc_eq_dec : EqDecision main_pc.
Proof. solve_decision. Defined.

(** The daemon as a set of goroutines around the shared world. A [quit]
    is two channels of capacity one, each represented by whether it holds
    a value. [watcher_looping] and [server_looping] tell whether the
    goroutine of [startWatching], respectively the dispatching goroutine of
    [startServer], is still in its loop; it leaves the loop right after
    [sendStopped]. [conns] is the buffered channel of accepted connections;
    [handlers] are the goroutines started by [go func() { serveConn(conn) }]
    that have not run yet. *)
Record system := {
  store : world;
  main_at : main_pc;
  watcher_looping : bool;
  watcher_stop : bool;
  watcher_stopped : bool;
  server_looping : bool;
  server_stop : bool;
  server_stopped : bool;
  conns : list conn;
  handlers : list conn
}.

(** One scheduling decision. *)
Inductive action :=
| Main                     (* daemonMain takes its next step *)
| WatcherTurn (d : delivery)  (* the watcher's select takes an event or error *)
| WatcherQuit              (* the watcher's select takes <-q.stop *)
| Accept (c : conn)        (* the accepting goroutine: conns <- conn *)
| ServerTurn               (* the server's select takes conn := <-conns *)
| ServerQuit               (* the server's select takes <-q.stop *)
| Handle (i : nat).        (* the i-th waiting handler runs serveConn *)

Definition started_system (w : world) : system :=
  {| store := w; main_at := AtSignal;
     watcher_looping := true; watcher_stop := false; watcher_stopped := false;
     server_looping := true; server_stop := false; server_stopped := false;
     conns := []; handlers := [] |}.

Section goroutines.
Context `{Collaborators}.

Definition with_store (w : world) (s : system) : system :=
  {| store := w; main_at := main_at s;
     watcher_looping := watcher_looping s; watcher_stop := watcher_stop s;
     watcher_stopped := watcher_stopped s;
     server_looping := server_looping s; server_stop := server_stop s;
     server_stopped := server_stopped s;
     conns := conns s; handlers := handlers s |}.

Definition main_step (s : system) : option system :=
  match main_at s with
  | AtSignal =>
    Some {| store := store s; main_at := AtSendWatcher;
            watcher_looping := watcher_looping s;
            watcher_stop := watcher_stop s;
            watcher_stopped := watcher_stopped s;
            server_looping := server_looping s;
            server_stop := server_stop s;
            server_stopped := server_stopped s;
            conns := conns s; handlers := handlers s |}
  | AtSendWatcher =>
    if watcher_stop s then None else
    Some {| store := store s; main_at := AtSendServer;
            watcher_looping := watcher_looping s;
            watcher_stop := true;
            watcher_stopped := watcher_stopped s;
            server_looping := server_looping s;
            server_stop := server_stop s;
            server_stopped := server_stopped s;
            conns := conns s; handlers := handlers s |}
  | AtSendServer =>
    if server_stop s then None else
    Some {| store := store s; main_at := AtRecvWatcher;
            watcher_looping := watcher_looping s;
            watcher_stop := watcher_stop s;
            watcher_stopped := watcher_stopped s;
            server_looping := server_looping s;
            server_stop := true;
            server_stopped := server_stopped s;
            conns := conns s; handlers := handlers s |}
  | AtRecvWatcher =>
    if watcher_stopped s then
      Some {| store := store s; main_at := AtRecvServer;
              watcher_looping := watcher_looping s;
              watcher_stop := watcher_stop s;
              watcher_stopped := false;
              server_looping := server_looping s;
              server_stop := server_stop s;
              server_stopped := server_stopped s;
              conns := conns s; handlers := handlers s |}
    else None
  | AtRecvServer =>
    if server_stopped s then
      Some {| store := store s; main_at := AtLock;
              watcher_looping := watcher_looping s;
              watcher_stop := watcher_stop s;
              watcher_stopped := watcher_stopped s;
              server_looping := server_looping s;
              server_stop := server_stop s;
              server_stopped := false;
              conns := conns s; handlers := handlers s |}
    else None
  | AtLock => None
  end.

(** [fire a s] is the system after [a], or [None] when [a] cannot be
    taken in [s]. *)
Definition fire (a : action) (s : system) : option system :=
  match a with
  | Main => main_step s
  | WatcherTurn d =>
    if watcher_looping s
    then Some (with_store (on_delivery d (store s)).2 s)
    else None
  | WatcherQuit =>
    if watcher_looping s && watcher_stop s then
      Some {| store := store s; main_at := main_at s;
              watcher_looping := false; watcher_stop := false;
              watcher_stopped := true;
              server_looping := server_looping s;
              server_stop := server_stop s;
              server_stopped := server_stopped s;
              conns := conns s; handlers := handlers s |}
    else None
  | Accept c =>
    if bool_decide (length (conns s) < 10)%nat then
      Some {| store := store s; main_at := main_at s;
              watcher_looping := watcher_looping s;
              watcher_stop := watcher_stop s;
              watcher_stopped := watcher_stopped s;
              server_looping := server_looping s;
              server_stop := server_stop s;
              server_stopped := server_stopped s;
              conns := conns s ++ [c]; handlers := handlers s |}
    else None
  | ServerTurn =>
    if server_looping s then
      match conns s with
      | [] => None
      | c :: rest =>
        Some {| store := store s; main_at := main_at s;
                watcher_looping := watcher_looping s;
                watcher_stop := watcher_stop s;
                watcher_stopped := watcher_stopped s;
                server_looping := server_looping s;
                server_stop := server_stop s;
                server_stopped := server_stopped s;
                conns := rest; handlers := handlers s ++ [c] |}
      end
    else None
  | ServerQuit =>
    if server_looping s && server_stop s then
      Some {| store := store s; main_at := main_at s;
              watcher_looping := watcher_looping s;
              watcher_stop := watcher_stop s;
              watcher_stopped := watcher_stopped s;
              server_looping := false; server_stop := false;
              server_stopped := true;
              conns := conns s; handlers := handlers s |}
    else None
  | Handle i =>
    match handlers s !! i with
    | None => None
    | Some c =>
      Some {| store := (serveConn c (store s)).2; main_at := main_at s;
              watcher_looping := watcher_looping s;
              watcher_stop := watcher_stop s;
              watcher_stopped := watcher_stopped s;
              server_looping := server_looping s;
              server_stop := server_stop s;
              server_stopped := server_stopped s;
              conns := conns s; handlers := delete i (handlers s) |}
    end
  end.

Fixpoint exec (acts : list action) (s : system) : option system :=
  match acts with
  | [] => Some s
  | a :: acts' =>
    match fire a s with
    | None => None
    | Some s' => exec acts' s'
    end
  end.

(** The systems the daemon can be in, once both loops are running. *)
Inductive reachable : system → Prop :=
| reachable_start w : reachable (started_system w)
| reachable_fire a s s' : reachable s → fire a s = Some s' → reachable s'.

End goroutines.

(** *** [daemonMain]: from its start to the wait for a signal *)

(** How [startWatching] goes: [fsnotify.NewWatcher] fails, and the function
    returns before it starts its goroutine; or the goroutine is started and
    [watcher.Watch] fails or succeeds. *)
Inductive watching :=
| NewWatcher_fails (err : error)
| Watch_fails (err : error)
| Watching.

(** How [startServer] goes: [net.Listen] fails, and the function returns
    before it starts its goroutines; or they are started. *)
Inductive listening :=
| Listen_fails (err : error)
| Listening.

(** Whether the goroutine has been started, and the error returned. *)
Definition startWatching (o : watching) : bool * option error :=
  match o with
  | NewWatcher_fails err => (false, Some err)
  | Watch_fails err => (true, Some err)
  | Watching => (true, None)
  end.

Definition startServer (o : listening) : bool * option error :=
  match o with
  | Listen_fails err => (false, Some err)
  | Listening => (true, None)
  end.

Section startup.
Context `{Collaborators}.

(** [daemonMain] up to [<-c]. [current] is what [user.Current] returns (the
    [Uid] of the user), [parsed] what [ParseConfigs] returns. The answer is
    the error [daemonMain] returns, or the goroutines as they stand when
    [daemonMain] waits for the signal: a goroutine that was not started is
    not in its loop. [os.Mkdir], [os.Remove] and the change of owner of the
    socket act on the file system only, of which the world holds nothing. *)
Definition daemonMain_startup (current : error + string)
  (parsed : error + list config) (configDir : string)
  (ow : watching) (os : listening) : error + system :=
  match current with
  | inl err => inl err
  | inr uid =>
    if decide (uid ≠ "0") then inl "govenator daemon must be run as root"
    else
      match parsed with
      | inl err => inl err
      | inr configs =>
        let w := booted configs in
        let '(wl, werr) := startWatching ow in
        let w :=
          match werr with
          | Some err =>
            (emit (Errorf ("error watching " +:+ configDir +:+
               ", configuration won't be automatically updated: " +:+ err))
               w).2
          | None => w
          end in
        let '(sl, serr) := startServer os in
        let w :=
          match serr with
          | Some err =>
            (emit (Errorf
               ("error starting server, can't receive remote commands: "
                +:+ err)) w).2
          | None => w
          end in
        inr {| store := w; main_at := AtSignal;
               watcher_looping := wl; watcher_stop := false;
               watcher_stopped := false;
               server_looping := sl; server_stop := false;
               server_stopped := false;
               conns := []; handlers := [] |}
      end
  end.

End startup.

(** ** A reference instance of the collaborators *)

(** ASCII case folding, as [strings.ToLower] acts on the command words. *)
Definition lower_ascii (a : Ascii.ascii) : Ascii.ascii :=
  let n := Ascii.nat_of_ascii a in
  if bool_decide (65 ≤ n ≤ 90)%nat then Ascii.ascii_of_nat (n + 32) else a.

Fixpoint lower (s : string) : string :=
  match s with
  | EmptyString => EmptyString
  | String a s' => String (lower_ascii a) (lower s')
  end.

(** Modelled from the spec: the state machine of service.go. [start] is
    legal from [Stopped] and [Failed] only and ends in [Started] or, when the
    launch fails, in [Failed] with the failure detail; [stop] is legal from
    [Started] only and ends in [Stopped]. Whether a launch or a stop succeeds
    is up to the process: [launches] and [exits] decide it here. A stop that
    fails leaves the service in [Stopping]. *)
Definition machine_Start (launches : nat → service → bool) (t : nat)
  (s : service) : service * option error :=
  match State s with
  | StateStopped | StateFailed =>
    if launches t s then
      ({| Config := Config s; State := StateStarted; Started := Z.of_nat t;
          Restarts := Restarts s; Err := ""; monitor := monitor s |}, None)
    else
      ({| Config := Config s; State := StateFailed; Started := Started s;
          Restarts := Restarts s; Err := "launch failed";
          monitor := monitor s |}, Some "launch failed")
  | _ => (s, Some "already running")
  end.

Definition machine_Stop (exits : nat → service → bool) (t : nat)
  (s : service) : service * option error :=
  match State s with
  | StateStarted =>
    if exits t s then
      ({| Config := Config s; State := StateStopped; Started := Started s;
          Restarts := Restarts s; Err := Err s; monitor := monitor s |}, None)
    else
      ({| Config := Config s; State := StateStopping; Started := Started s;
          Restarts := Restarts s; Err := Err s; monitor := monitor s |},
       Some "still alive")
  | _ => (s, Some "not running")
  end.

Definition machine (launches exits : nat → service → bool)
  (net : nat → option error) : Collaborators := {|
  Start := machine_Start launches;
  Stop := machine_Stop exits;
  written := net;
  ToLower := lower;
  filepath_Base := id;
  shouldIgnoreFile name := bool_decide (name = "") ||
                           String.prefix "." name;
  FileEvent_String := ev_Name;
  formatTime := pretty;
  tabwriter := id;
  newLine := [Byte.x0a];
  help := "start|stop|restart|list|log"
|}.

(** Every launch and every stop succeeds and every write goes through. *)
Definition healthy : Collaborators :=
  machine (λ _ _, true) (λ _ _, true) (λ _, None).

(** No process can be stopped. *)
Definition stubborn : Collaborators :=
  machine (λ _ _, true) (λ _ _, false) (λ _, None).

(** The client has gone away: every write fails. *)
Definition disconnected : Collaborators :=
  machine (λ _ _, true) (λ _ _, true) (λ _, Some "broken pipe").

(** * The vocabulary of the properties *)

(** ** Order *)

Section order.
Context {A : Type} (key : A → Z).

Definition ascending : list A → Prop :=
  StronglySorted (λ x y, key x ≤ key y).

Section tiebreak.
Context (T : A → A → Prop).

Definition before (x y : A) : Prop :=
  key x < key y ∨ (key x = key y ∧ T x y).

End tiebreak.

End order.

(** Registry entries are addresses of allocated services. *)
Definition wf (w : world) : Prop :=
  Forall (λ p, (p < length (heap w))%nat) (services_list w).

(** The registry is sorted by priority. *)
Definition sorted (w : world) : Prop :=
  ascending (priority (heap w)) (services_list w).

(** The registry is sorted by priority, and services of one priority
    stand in the order of their insertion. A service is inserted right
    after [newService] has allocated it, so the order of insertion is the
    order of the addresses. *)
Definition in_insertion_order (w : world) : Prop :=
  StronglySorted (before (priority (heap w)) (λ p q : ptr, (p < q)%nat))
    (services_list w).

(** The three ways a step can act on the registry: it leaves every
    priority alone and the registry as it is or short of one entry; it
    allocates a service and sorts it in; it sorts the registry it
    found. *)
Definition effect (w w' : world) : Prop :=
  (length (heap w') = length (heap w) ∧
   (∀ q, priority (heap w') q = priority (heap w) q) ∧
   (services_list w' = services_list w ∨
    ∃ j, services_list w' =
         take j (services_list w) ++ drop (S j) (services_list w))) ∨
  (length (heap w') = S (length (heap w)) ∧
   (∀ p, (p < length (heap w))%nat →
         priority (heap w') p = priority (heap w) p) ∧
   services_list w' =
   Stable (priority (heap w')) (services_list w ++ [length (heap w)])) ∨
  (length (heap w') = length (heap w) ∧
   services_list w' = Stable (priority (heap w')) (services_list w)).

(** Stable tie-breaking: among the services that are registered both
    before and after a step, those that end with the same priority stand in
    the order they had before the step. *)
Definition ties_kept (w w' : world) : Prop :=
  ∀ v,
    filter (λ p, priority (heap w') p = v)
      (filter (λ p, p ∈ services_list w) (services_list w')) =
    filter (λ p, priority (heap w') p = v)
      (filter (λ p, p ∈ services_list w') (services_list w)).

(** ** Traces *)

(** The events a computation adds to the trace. *)
Definition added (w w' : world) (evs : list event) : Prop :=
  trace w' = trace w ++ evs.

Definition is_End (e : event) : bool :=
  match e with Response _ respEnd _ _ => true | _ => false end.

Definition is_Start (e : event) : bool :=
  match e with CallStart _ _ => true | _ => false end.

Definition no_End (evs : list event) : Prop :=
  Forall (λ e, is_End e = false) evs.

Definition starts (evs : list event) : list ptr :=
  omap (λ e, match e with CallStart p _ => Some p | _ => None end) evs.

Definition stops (evs : list event) : list ptr :=
  omap (λ e, match e with CallStop p _ => Some p | _ => None end) evs.

Definition dispatched (evs : list event) : list ptr :=
  omap (λ e, match e with Go p => Some p | _ => None end) evs.

(** ** Requests and events *)

(** The registry entry a request names: the first one in registry order
    whose service has that name. *)
Definition named (w : world) (arg : string) : option ptr :=
  snd <$> list_find (λ p, Name (heap w !!! p) = arg) (services_list w).

(** The registry entry an event is about: the first one in registry order
    configured from that file. *)
Definition of_file (w : world) (name : string) : option ptr :=
  snd <$> list_find (λ p, File (Config (heap w !!! p)) = name)
            (services_list w).

Definition commands : list string :=
  ["start"; "stop"; "restart"; "list"; "log"].

Definition header : string := "SERVICE" +:+ tab +:+ "STATUS" +:+ tab +:+ nl.

Definition row (v : service) (text : string) : string :=
  Name v +:+ tab +:+ text +:+ tab +:+ nl.

Definition table (vs : list service) (texts : list string) : string :=
  header +:+ foldr String.append "" (zip_with row vs texts).

Definition declared (s : state) : bool :=
  match s with StateOther _ => false | _ => true end.

(** Every service of the registry is in one of the five declared
    states. *)
Definition declared_states (w : world) : Prop :=
  ∀ p raw, p ∈ services_list w → State (heap w !!! p) ≠ StateOther raw.

(** What the control protocol leaves alone: the registry, the set of
    allocated services and every configuration. *)
Definition same_registry (w w' : world) : Prop :=
  services_list w' = services_list w ∧
  length (heap w') = length (heap w) ∧
  ∀ q, Config (heap w' !!! q) = Config (heap w !!! q).

Definition frame {A} (m : St A) : Prop := ∀ w, same_registry w (m w).2.

(** An acknowledgment in a [stopped] channel, or already received by
    [daemonMain], comes from a goroutine that has left its loop. *)
Definition acknowledged (s : system) : Prop :=
  (watcher_stopped s = true → watcher_looping s = false) ∧
  (server_stopped s = true → server_looping s = false) ∧
  (main_at s = AtRecvServer ∨ main_at s = AtLock →
   watcher_looping s = false) ∧
  (main_at s = AtLock → server_looping s = false).

Section vocabulary.
Context `{Collaborators}.

(** The status column as the specification words it. *)
Inductive rendered : service → string → Prop :=
| rendered_stopped v :
    State v = StateStopped → rendered v "STOPPED"
| rendered_stopping v :
    State v = StateStopping → rendered v "STOPPING"
| rendered_starting v :
    State v = StateStarting → rendered v "STARTING"
| rendered_running v :
    State v = StateStarted → Restarts v = 0 →
    rendered v ("RUNNING since " +:+ formatTime (Started v))
| rendered_restarted v :
    State v = StateStarted → Restarts v > 0 →
    rendered v ("RUNNING since " +:+ formatTime (Started v) +:+ " - " +:+
                pretty (Restarts v) +:+ " restarts")
| rendered_failed v :
    State v = StateFailed → rendered v ("FAILED - " +:+ Err v).

(** The request is a [log] that passes every check of the dispatcher and
    so installs its subscriber. *)
Definition subscribes (c : conn) (w : world) : Prop :=
  ∃ a arg st,
    decodeArgs c = inr [a; arg] ∧ ToLower a = "log" ∧
    named w arg = Some st ∧
    State (heap w !!! st) = StateStarted ∧
    monitor (heap w !!! st) = None.

(** The request carries a word that is no command, and the write of the
    error message for it fails with [e]. *)
Definition unanswerable (c : conn) (w : world) (e : error) : Prop :=
  ∃ a rest,
    decodeArgs c = inr (a :: rest) ∧ (ToLower a ≠ "") ∧
    (ToLower a ∉ commands) ∧ written (clock w) = Some e.

(** No step of the run changes the priority of a registered service. *)
Fixpoint keeps_priorities (steps : list step) (w : world) : Prop :=
  match steps with
  | [] => True
  | s :: steps' =>
    (∀ p, p ∈ services_list w →
          priority (heap (do_step s w)) p = priority (heap w) p) ∧
    keeps_priorities steps' (do_step s w)
  end.

Global Instance keeps_priorities_dec steps w :
  Decision (keeps_priorities steps w).
Proof.
  revert w. induction steps as [|s steps IH]; intros w; simpl.
  - left. exact I.
  - destruct (decide (Forall
        (λ p, priority (heap (do_step s w)) p = priority (heap w) p)
        (services_list w))) as [Hf|Hf].
    + destruct (IH (do_step s w)) as [Hk|Hk].
      * left. split; [|exact Hk]. by apply Forall_forall.
      * right. by intros [_ ?].
    + right. intros [Hp _]. by apply Hf, Forall_forall.
Defined.

End vocabulary.

(** ** Effects, frames and the handshake *)

(** The events that [w'] has and [w] has not yet. *)
Definition since (w w' : world) : list event :=
  drop (length (trace w)) (trace w').

(** The computation leaves the service object at [q] as it is. *)
Definition leaves {A} (q : ptr) (m : St A) : Prop :=
  ∀ w, heap (m w).2 !!! q = heap w !!! q.

(** What a subscriber writes for one line of a service's log. *)
Definition framed `{Collaborators} (line : string * list Byte.byte) : string :=
  let buf := String.list_byte_of_string ("[" +:+ line.1 +:+ "] ") ++ line.2 in
  String.string_of_list_byte
    (match last line.2 with
     | Some x => if Byte.eqb x Byte.x0a then buf else buf ++ newLine
     | None => buf
     end).







(** ** Scenarios *)

Definition cfg (file : string) (prio : Z) : config :=
  {| File := file; Priority := prio; ServiceName := file; Launch := [file] |}.

Definition create (file : string) : FileEvent :=
  {| ev_Name := file; IsCreate := true; IsDelete := false; IsRename := false;
     IsModify := false |}.

Definition modify (file : string) : FileEvent :=
  {| ev_Name := file; IsCreate := false; IsDelete := false; IsRename := false;
     IsModify := true |}.

Definition remove (file : string) : FileEvent :=
  {| ev_Name := file; IsCreate := false; IsDelete := true; IsRename := false;
     IsModify := false |}.

Definition request (n : nat) (args : list string) : conn :=
  {| fd := n; decodeArgs := inr args; delivered := [] |}.

(** The services A (priority 1), B (priority 2) and C (priority 1), whose
    files appear in the order C, A, B. *)
Definition disk (name : string) : config :=
  if decide (name = "B") then cfg "B" 2 else cfg name 1.

Definition three_created : list delivery :=
  [FromEvent disk (create "C"); FromEvent disk (create "A");
   FromEvent disk (create "B")].

(** Three services in the states [Started] with two restarts, [Stopped]
    and [Failed] with the error boom. *)
Definition listed : world :=
  {| heap :=
       [ {| Config := cfg "web" 1; State := StateStarted; Started := 5;
            Restarts := 2; Err := ""; monitor := None |};
         {| Config := cfg "db" 2; State := StateStopped; Started := 0;
            Restarts := 0; Err := ""; monitor := None |};
         {| Config := cfg "mail" 3; State := StateFailed; Started := 0;
            Restarts := 0; Err := "boom"; monitor := None |} ];
     services_list := [0; 1; 2]%nat;
     trace := [] |}.

(** A world with the services C, A and B running. *)
Definition running : world := (@watch healthy three_created initial).2.

(** The world [running] after service A has been stopped. *)
Definition A_stopped : world :=
  (@serveConn healthy (request 7 ["stop"; "A"]) running).2.

(** The directory after every file has been edited to priority 3. *)
Definition edited (name : string) : config := cfg name 3.

(** A subscriber to the log of A that receives one line and is then ended
    by the client. *)
Definition follow_A : conn :=
  {| fd := 9; decodeArgs := inr ["log"; "A"];
     delivered := [("out", [Byte.x68; Byte.x69])] |}.

(** * Properties *)

(** ** [servicesByPriority]: the stable sort of the registry *)

Lemma filter_none {A} (P : A → Prop) `{!∀ x, Decision (P x)} (l : list A) :
  Forall (λ x, ¬ P x) l → filter P l = [].
Proof.
  induction 1 as [|x l Hx _ IH]; [done|].
  by rewrite filter_cons_False.
Qed.

Section stable_sort.
Context {A : Type} (key : A → Z).

Lemma settle_perm x l : settle key x l ≡ₚ x :: l.
Proof.
  induction l as [|y l IH]; simpl; [done|].
  destruct (Less key x y); [done|].
  rewrite IH. apply perm_swap.
Qed.

Lemma Stable_snoc l x : Stable key (l ++ [x]) = settle key x (Stable key l).
Proof. unfold Stable. by rewrite foldl_app. Qed.

Lemma Stable_perm l : Stable key l ≡ₚ l.
Proof.
  induction l as [|x l IH] using rev_ind; [done|].
  rewrite Stable_snoc, settle_perm, IH.
  by rewrite (Permutation_app_comm l [x]).
Qed.

Lemma settle_ascending x l : ascending key l → ascending key (settle key x l).
Proof.
  unfold ascending.
  induction l as [|y l IH]; simpl; intros Hs.
  - repeat constructor.
  - apply StronglySorted_inv in Hs as [Hl Hy].
    unfold Less. case_bool_decide as Hxy.
    + constructor; [by constructor|].
      constructor; [lia|].
      eapply Forall_impl; [exact Hy|]. simpl. intros; lia.
    + constructor; [by apply IH|].
      rewrite settle_perm. constructor; [lia|done].
Qed.

Lemma Stable_ascending l : ascending key (Stable key l).
Proof.
  induction l as [|x l IH] using rev_ind; [constructor|].
  rewrite Stable_snoc. by apply settle_ascending.
Qed.

(** An element not smaller than everything before it stays last. *)
Lemma settle_last x l :
  Forall (λ y, key y ≤ key x) l → settle key x l = l ++ [x].
Proof.
  induction 1 as [|y l Hy _ IH]; simpl; [done|].
  unfold Less. rewrite bool_decide_eq_false_2 by lia. by rewrite IH.
Qed.

Lemma ascending_snoc l x :
  ascending key (l ++ [x]) → Forall (λ y, key y ≤ key x) l.
Proof.
  unfold ascending. rewrite StronglySorted_app.
  intros (H & _ & _). apply Forall_forall. intros y Hy.
  apply H; [done|]. by apply list_elem_of_singleton.
Qed.

(** Sorting a sorted registry leaves it as it is. *)
Lemma Stable_id l : ascending key l → Stable key l = l.
Proof.
  induction l as [|x l IH] using rev_ind; [done|].
  intros Hs. rewrite Stable_snoc.
  rewrite IH by (eapply StronglySorted_app_1_l; exact Hs).
  apply settle_last. by apply ascending_snoc.
Qed.

(** Stability: the services of one priority keep the order they had
    before the sort. *)
Lemma settle_filter v x l :
  ascending key l →
  filter (λ y, key y = v) (settle key x l) =
  filter (λ y, key y = v) l ++ filter (λ y, key y = v) [x].
Proof.
  unfold ascending.
  induction l as [|y l IH]; simpl; intros Hs; [done|].
  apply StronglySorted_inv in Hs as [Hl Hy].
  unfold Less. case_bool_decide as Hxy.
  - destruct (decide (key x = v)) as [Hx|Hx].
    + rewrite (filter_cons_True _ x) by done.
      assert (filter (λ y0, key y0 = v) (y :: l) = []) as ->.
      { apply filter_none. constructor; [lia|].
        eapply Forall_impl; [exact Hy|]. simpl. intros; lia. }
      by rewrite (filter_cons_True _ x) by done.
    + rewrite (filter_cons_False _ x) by done.
      rewrite (filter_cons_False _ x [] ) by done.
      by rewrite filter_nil, app_nil_r.
  - rewrite !filter_cons. rewrite (IH Hl).
    by destruct (decide (key y = v)).
Qed.

Lemma Stable_stable v l :
  filter (λ y, key y = v) (Stable key l) = filter (λ y, key y = v) l.
Proof.
  induction l as [|x l IH] using rev_ind; [done|].
  rewrite Stable_snoc, settle_filter by apply Stable_ascending.
  by rewrite IH, filter_app.
Qed.

(** The two properties above determine the result: any ascending
    arrangement that keeps the order inside every priority class is the
    one [Stable] returns. *)
Lemma stable_sort_unique l1 l2 :
  ascending key l1 → ascending key l2 →
  (∀ v, filter (λ y, key y = v) l1 = filter (λ y, key y = v) l2) →
  l1 = l2.
Proof.
  unfold ascending. revert l2.
  induction l1 as [|x l1 IH]; intros l2 H1 H2 Hf.
  - destruct l2 as [|y l2]; [done|].
    specialize (Hf (key y)). rewrite filter_nil in Hf.
    by rewrite (filter_cons_True _ y) in Hf.
  - destruct l2 as [|y l2].
    { specialize (Hf (key x)). rewrite filter_nil in Hf.
      by rewrite (filter_cons_True _ x) in Hf. }
    apply StronglySorted_inv in H1 as [H1 Hx].
    apply StronglySorted_inv in H2 as [H2 Hy].
    assert (key y ≤ key x) as Hyx.
    { pose proof (Hf (key x)) as E.
      rewrite (filter_cons_True _ x) in E by done.
      assert (x ∈ filter (λ y0, key y0 = key x) (y :: l2)) as Hin
        by (rewrite <- E; left).
      apply list_elem_of_filter in Hin as [_ Hin].
      apply elem_of_cons in Hin as [->|Hin]; [lia|].
      by eapply Forall_forall in Hy. }
    assert (key x ≤ key y) as Hxy.
    { pose proof (Hf (key y)) as E.
      rewrite (filter_cons_True _ y (l2)) in E by done.
      assert (y ∈ filter (λ y0, key y0 = key y) (x :: l1)) as Hin
        by (rewrite E; left).
      apply list_elem_of_filter in Hin as [_ Hin].
      apply elem_of_cons in Hin as [->|Hin]; [lia|].
      by eapply Forall_forall in Hx. }
    assert (x = y) as <-.
    { pose proof (Hf (key x)) as E.
      rewrite (filter_cons_True _ x) in E by done.
      rewrite (filter_cons_True _ y) in E by lia. congruence. }
    f_equal. apply IH; [done..|].
    intros v. specialize (Hf v). rewrite !filter_cons in Hf.
    destruct (decide (key x = v)); congruence.
Qed.

Lemma Stable_characterised l l' :
  ascending key l' →
  (∀ v, filter (λ y, key y = v) l' = filter (λ y, key y = v) l) →
  Stable key l = l'.
Proof.
  intros Hs Hf. apply stable_sort_unique; [apply Stable_ascending|done|].
  intros v. by rewrite Stable_stable.
Qed.

(** Ties resolved by a second order [T]: when the new element comes
    after every other one in [T], settling it keeps the list ordered by
    key first and [T] second. *)
Section tiebreak_facts.
Context (T : A → A → Prop).

Lemma before_ascending l : StronglySorted (before key T) l → ascending key l.
Proof.
  unfold ascending. induction 1 as [|x l _ IH Hx]; constructor; [done|].
  eapply Forall_impl; [exact Hx|]. unfold before. simpl. intros; lia.
Qed.

Lemma settle_before x l :
  StronglySorted (before key T) l → Forall (λ y, T y x) l →
  StronglySorted (before key T) (settle key x l).
Proof.
  induction l as [|y l IH]; simpl; intros Hs HT.
  - repeat constructor.
  - apply StronglySorted_inv in Hs as [Hl Hy].
    apply Forall_cons in HT as [HTy HT].
    unfold Less. case_bool_decide as Hxy.
    + constructor; [by constructor|].
      constructor; [by left|].
      eapply Forall_impl; [exact Hy|]. unfold before. simpl.
      intros; left; lia.
    + constructor; [by apply IH|].
      rewrite settle_perm. constructor; [|done].
      unfold before. destruct (decide (key y = key x)); [by right|].
      left; lia.
Qed.

End tiebreak_facts.

End stable_sort.

(** ** The reference instance *)

Lemma machine_ConfigImmutable launches exits net :
  @ConfigImmutable (machine launches exits net).
Proof.
  split; intros t s; simpl; unfold machine_Start, machine_Stop;
    repeat case_match; done.
Qed.

(** ** Reasoning about state-passing code *)

Ltac st_unfold :=
  unfold mbind, St_bind, mret, St_ret, fmap, St_fmap, emit, deref, assign,
    alloc, get_list, set_list, Sort_services.

Ltac st_simpl := st_unfold; simpl.

(** ** The control protocol *)

Section protocol_facts.
Context `{Collaborators}.

Lemma find_service_spec arg vs w :
  find_service arg vs w =
  ((λ p, (p, arg)) <$>
     (snd <$> list_find (λ p, Name (heap w !!! p) = arg) vs), w).
Proof.
  induction vs as [|v vs IH]; [done|].
  simpl. st_simpl. destruct (decide (Name (heap w !!! v) = arg)) as [E|E].
  - simpl. by rewrite E.
  - rewrite IH. by destruct (list_find _ vs) as [[??]|].
Qed.

Lemma needs_service_restart : needs_service "restart" = true.
Proof. done. Qed.

(** C9. The subscriber installed by [log] decides on the last byte of the
    line whether to append a newline. On an empty line there is no last
    byte: the indexing panics and nothing is written. On a line that is
    not empty it writes exactly one [Ok] message, the framed line. *)
Theorem log_monitor_last_byte c prefix b w :
  ((log_monitor c prefix b w).1 = None ↔ b = []) ∧
  (b = [] → log_monitor c prefix b w = (None, w)) ∧
  (∀ b' x, b = b' ++ [x] →
     log_monitor c prefix b w =
     (Some (),
      {| heap := heap w; services_list := services_list w;
         trace := trace w ++
           [Response (fd c) respOk
              (String.string_of_list_byte
                 (String.list_byte_of_string ("[" +:+ prefix +:+ "] ")
                  ++ b' ++ [x] ++
                  (if Byte.eqb x Byte.x0a then [] else newLine)))
              (written (clock w))] |})).
Proof.
  split_and!.
  - unfold log_monitor. destruct (last b) as [x|] eqn:E.
    + st_simpl. split; [done|]. intros ->. done.
    + apply last_None in E. by rewrite E.
  - intros ->. done.
  - intros b' x ->. unfold log_monitor. rewrite last_snoc.
    st_simpl. unfold encodeResponse. do 4 f_equal.
    destruct (Byte.eqb x Byte.x0a); simpl; [done|].
    by rewrite <- !app_assoc.
Qed.

(** C10. A [restart] that names a registered service which is not
    [Started] calls neither [Stop] nor [Start] and writes no [Ok] or [Err]
    message: the only effect is the end-of-response marker, and services
    and registry are as before. *)
Theorem restart_not_running c w a arg st :
  decodeArgs c = inr [a; arg] →
  ToLower a = "restart" →
  named w arg = Some st →
  State (heap w !!! st) ≠ StateStarted →
  serveConn c w =
  (Return (written (clock w)),
   {| heap := heap w; services_list := services_list w;
      trace := trace w ++
               [Response (fd c) respEnd "" (written (clock w))] |}).
Proof.
  intros Hargs Hcmd Hst Hstate. unfold serveConn. rewrite Hargs, Hcmd.
  unfold resolve. rewrite needs_service_restart. simpl.
  st_unfold. simpl. rewrite find_service_spec.
  unfold named in Hst. rewrite Hst. simpl.
  unfold command. simpl. st_unfold. simpl.
  by rewrite decide_False by done.
Qed.

Lemma wf_allocated w p : wf w → p ∈ services_list w → (p < length (heap w))%nat.
Proof. unfold wf. rewrite Forall_forall. auto. Qed.

(** C4. In the handling of a [restart] request, every call of [Start]
    comes after a call of [Stop] on the same service that returned no
    error. When [Stop] returns an error, [Start] is not called at all, the
    client is sent the [Err] message that carries the error, and the
    service is left as that call of [Stop] left it. *)
Theorem restart_start_only_after_stop c w a args :
  decodeArgs c = inr (a :: args) →
  ToLower a = "restart" →
  wf w →
  ∃ evs, added w (serveConn c w).2 evs ∧
    (∀ i p r, evs !! i = Some (CallStart p r) →
       ∃ j, (j < i)%nat ∧ evs !! j = Some (CallStop p None)) ∧
    (∀ j p e, evs !! j = Some (CallStop p (Some e)) →
       Forall (λ ev, is_Start ev = false) evs ∧
       (∃ k r, (j < k)%nat ∧
          evs !! k = Some (Response (fd c) respErr
            ("error stopping " +:+ Name (heap w !!! p) +:+ ": " +:+ e
             +:+ nl) r)) ∧
       heap (serveConn c w).2 !!! p = (Stop (S (clock w)) (heap w !!! p)).1).
Proof.
  intros Hargs Hcmd Hwf. unfold serveConn, added. rewrite Hargs, Hcmd.
  unfold resolve. rewrite needs_service_restart.
  destruct (decide (length (a :: args) ≠ 2%nat)) as [Hlen|Hlen].
  { st_simpl. unfold encodeResponse. simpl. eexists. split; [|split].
    - by rewrite <- app_assoc.
    - intros i p r Hi. repeat (destruct i as [|i]; simplify_eq/=).
    - intros i p r Hi. repeat (destruct i as [|i]; simplify_eq/=). }
  st_simpl. rewrite find_service_spec.
  destruct (list_find _ _) as [[i0 st]|] eqn:Hfind; simpl.
  2:{ unfold encodeResponse. simpl. eexists. split; [|split].
    - by rewrite <- app_assoc.
    - intros i p r Hi. repeat (destruct i as [|i]; simplify_eq/=).
    - intros i p r Hi. repeat (destruct i as [|i]; simplify_eq/=). }
  assert (st < length (heap w))%nat as Hst.
  { apply wf_allocated; [done|]. apply list_find_Some in Hfind as (E & _).
    by eapply list_elem_of_lookup_2. }
  unfold command. simpl. st_unfold. simpl.
  destruct (decide (State (heap w !!! st) = StateStarted)) as [Hrun|Hrun].
  2:{ simpl. unfold encodeResponse. simpl. eexists. split; [|split].
    - done.
    - intros i p r Hi. repeat (destruct i as [|i]; simplify_eq/=).
    - intros i p r Hi. repeat (destruct i as [|i]; simplify_eq/=). }
  unfold stopService, startService, encodeResponse, call_Stop, call_Start.
  st_unfold. simpl. unfold clock. simpl. rewrite length_app. simpl.
  replace (length (trace w) + 1)%nat with (S (length (trace w))) by lia.
  destruct (Stop (S (length (trace w))) (heap w !!! st)) as [s1 [e|]] eqn:HS;
    simpl.
  - eexists. split; [|split].
    + by rewrite <- !app_assoc.
    + intros i p r Hi. repeat (destruct i as [|i]; simplify_eq/=).
    + intros i p r Hi. repeat (destruct i as [|i]; simplify_eq/=).
      split; [repeat constructor|]. split.
      * exists 2%nat. eexists. split; [lia|]. done.
      * rewrite HS. simpl. by rewrite list_lookup_total_insert_eq.
  - destruct (Start _ _) as [s2 [e|]] eqn:HT; simpl.
    + eexists. split; [|split].
      * by rewrite <- !app_assoc.
      * intros i p r Hi. repeat (destruct i as [|i]; simplify_eq/=).
        exists 1%nat. split; [lia|done].
      * intros i p r Hi. repeat (destruct i as [|i]; simplify_eq/=).
    + eexists. split; [|split].
      * by rewrite <- !app_assoc.
      * intros i p r Hi. repeat (destruct i as [|i]; simplify_eq/=).
        exists 1%nat. split; [lia|done].
      * intros i p r Hi. repeat (destruct i as [|i]; simplify_eq/=).
Qed.

End protocol_facts.

(** ** The watcher *)

Section watcher_facts.
Context `{Collaborators}.

Lemma on_modify_same_config ParseConfig name vs w i v :
  list_find (λ p, File (Config (heap w !!! p)) = name) vs = Some (i, v) →
  ParseConfig name = Config (heap w !!! v) →
  on_modify ParseConfig name vs w = ((), w).
Proof.
  revert i. induction vs as [|u vs IH]; intros i Hfind Hcfg; [done|].
  simpl in Hfind. simpl. st_simpl.
  destruct (decide (File (Config (heap w !!! u)) = name)) as [Hu|Hu].
  - simplify_eq. by rewrite decide_True.
  - destruct (list_find _ vs) as [[j u']|] eqn:E; simplify_eq/=. eauto.
Qed.

(** C5. A modify event for a file whose freshly parsed configuration
    equals the configuration of the service registered for that file
    changes nothing at all: the heap of services (state, configuration,
    restart count), the registry and the trace (no call of [Stop] or
    [Start], no log line, no [Sort]) are what they were. *)
Theorem modify_equal_config_is_noop ParseConfig ev w v :
  let name := filepath_Base (ev_Name ev) in
  IsCreate ev = false → IsDelete ev = false → IsRename ev = false →
  IsModify ev = true →
  of_file w name = Some v →
  ParseConfig name = Config (heap w !!! v) →
  on_event ParseConfig ev w = ((), w).
Proof.
  intros name Hc Hd Hr Hm Hv Hcfg. unfold on_event. fold name.
  destruct (shouldIgnoreFile name); [done|].
  rewrite Hc, Hd, Hr, Hm. simpl. st_simpl.
  unfold of_file in Hv.
  destruct (list_find _ _) as [[i u]|] eqn:E; simplify_eq/=.
  by eapply on_modify_same_config.
Qed.

End watcher_facts.

(** ** The [list] command *)

Lemma append_assoc (s1 s2 s3 : string) : (s1 +:+ s2) +:+ s3 = s1 +:+ s2 +:+ s3.
Proof.
  induction s1 as [|a s1 IH]; [done|].
  change (String a ((s1 +:+ s2) +:+ s3) = String a (s1 +:+ s2 +:+ s3)).
  by f_equal.
Qed.

Lemma append_nil_r (s : string) : s +:+ "" = s.
Proof.
  induction s as [|a s IH]; [done|].
  change (String a (s +:+ "") = String a s). by f_equal.
Qed.

Section list_command.
Context `{Collaborators}.

Lemma rendered_status v t : rendered v t → status v = Some t.
Proof.
  unfold status. destruct 1 as [v E|v E|v E|v E R|v E R|v E]; rewrite E;
    try done.
  - rewrite decide_False by lia. done.
  - rewrite decide_True by lia. done.
Qed.

Lemma status_None v : status v = None ↔ ∃ raw, State v = StateOther raw.
Proof.
  unfold status. destruct (State v) eqn:E; try case_decide;
    split; try done; try (intros [? [=]]). eauto.
Qed.

Lemma list_rows_rendered h ps texts acc :
  Forall2 rendered ((λ p, h !!! p) <$> ps) texts →
  list_rows h ps acc =
  Some (acc +:+
        foldr String.append "" (zip_with row ((λ p, h !!! p) <$> ps) texts)).
Proof.
  revert texts acc. induction ps as [|p ps IH]; intros texts acc Hr.
  - apply Forall2_nil_inv_l in Hr as ->. simpl. by rewrite append_nil_r.
  - rewrite fmap_cons in Hr.
    apply Forall2_cons_inv_l in Hr as (t & texts' & Ht & Hr & ->).
    simpl. rewrite (rendered_status _ _ Ht). rewrite (IH _ _ Hr).
    f_equal. unfold row. by rewrite !append_assoc.
Qed.

Lemma list_rows_invalid h ps acc v raw :
  v ∈ (λ p, h !!! p) <$> ps → State v = StateOther raw →
  list_rows h ps acc = None.
Proof.
  revert acc. induction ps as [|p ps IH]; intros acc Hin Hv.
  - by apply elem_of_nil in Hin.
  - rewrite fmap_cons in Hin. simpl.
    destruct (status (h !!! p)) as [t|] eqn:E; [|done].
    apply elem_of_cons in Hin as [->|Hin]; [|by apply IH].
    assert (status (h !!! p) = None) as E' by (apply status_None; eauto).
    congruence.
Qed.

Lemma needs_service_list : needs_service "list" = false.
Proof. done. Qed.

(** C8. The [list] command answers with one row per service, in registry
    order, made of the service's name and the status the specification
    gives for its state; the whole table goes out as one [Ok] message
    followed by the end marker. Only a state outside the five declared
    ones has no status: the command then panics, which no service in a
    declared state can cause. *)
Theorem list_renders_every_service c w a args :
  decodeArgs c = inr (a :: args) →
  ToLower a = "list" →
  let vs := (λ p, heap w !!! p) <$> services_list w in
  (∀ v t, rendered v t → status v = Some t) ∧
  (∀ v, status v = None ↔ ∃ raw, State v = StateOther raw) ∧
  (∀ texts, Forall2 rendered vs texts →
     serveConn c w =
     (Return (written (S (clock w))),
      {| heap := heap w; services_list := services_list w;
         trace := trace w ++
           [Response (fd c) respOk (tabwriter (table vs texts) +:+ nl)
              (written (clock w));
            Response (fd c) respEnd "" (written (S (clock w)))] |})) ∧
  (∀ v raw, v ∈ vs → State v = StateOther raw →
     serveConn c w = (Panic "invalid state", w)).
Proof.
  intros Hargs Hcmd vs. split_and!.
  - apply rendered_status.
  - apply status_None.
  - intros texts Hr. unfold serveConn. rewrite Hargs, Hcmd.
    unfold resolve. rewrite needs_service_list. st_simpl.
    unfold command. simpl. st_simpl.
    rewrite (list_rows_rendered _ _ texts) by done.
    unfold encodeResponse, clock. simpl. rewrite length_app. simpl.
    replace (length (trace w) + 1)%nat with (S (length (trace w))) by lia.
    by rewrite <- app_assoc.
  - intros v raw Hin Hv. unfold serveConn. rewrite Hargs, Hcmd.
    unfold resolve. rewrite needs_service_list. st_simpl.
    unfold command. simpl. st_simpl.
    by rewrite (list_rows_invalid _ _ _ v raw).
Qed.

End list_command.

(** ** The end-of-response marker *)

Section end_marker.
Context `{Collaborators}.

Lemma declared_states_check w :
  forallb (λ p, declared (State (heap w !!! p))) (services_list w) = true →
  declared_states w.
Proof.
  intros Hall p raw Hp Hs. rewrite forallb_forall in Hall.
  apply list_elem_of_In, Hall in Hp. by rewrite Hs in Hp.
Qed.

Lemma log_stream_no_End c lines w :
  ∃ evs, added w (log_stream c lines w).2 evs ∧ no_End evs.
Proof.
  unfold added. revert w. induction lines as [|[prefix b] lines IH]; intros w.
  - exists []. split; [by rewrite app_nil_r|constructor].
  - simpl. st_unfold. unfold log_monitor.
    destruct (last b) as [x|]; simpl.
    + unfold encodeResponse. st_simpl.
      match goal with |- context [log_stream c lines ?w1] =>
        destruct (IH w1) as (evs & Hevs & Hno) end.
      simpl in Hevs. eexists. split.
      * rewrite Hevs, <- app_assoc. done.
      * constructor; [done|]. exact Hno.
    + exists []. split; [by rewrite app_nil_r|constructor].
Qed.

Lemma list_rows_declared h ps acc :
  (∀ p raw, p ∈ ps → State (h !!! p) ≠ StateOther raw) →
  is_Some (list_rows h ps acc).
Proof.
  revert acc. induction ps as [|p ps IH]; intros acc Hs; [by eexists|].
  simpl. destruct (status (h !!! p)) as [t|] eqn:E.
  - apply IH. intros q raw Hq. apply Hs. by right.
  - apply status_None in E as [raw E]. exfalso.
    eapply (Hs p raw); [left|done].
Qed.

Lemma needs_service_iff cmd :
  needs_service cmd = true ↔
  cmd = "start" ∨ cmd = "stop" ∨ cmd = "restart" ∨ cmd = "log".
Proof.
  unfold needs_service. rewrite !orb_true_iff, !bool_decide_eq_true.
  tauto.
Qed.

Lemma commands_iff cmd :
  cmd ∈ commands ↔
  cmd = "start" ∨ cmd = "stop" ∨ cmd = "restart" ∨ cmd = "list" ∨
  cmd = "log".
Proof.
  unfold commands. rewrite !elem_of_cons, elem_of_nil. tauto.
Qed.

Ltac same_args :=
  repeat match goal with
  | Ha : decodeArgs ?c = _, Hb : decodeArgs ?c = _ |- _ =>
    rewrite Ha in Hb; simplify_eq/=
  end.

Ltac same_find :=
  unfold named in *;
  repeat match goal with
  | Ha : list_find ?P ?l = _, Hb : context [list_find ?P ?l] |- _ =>
    rewrite Ha in Hb; simplify_eq/=
  end.

Ltac not_subscribed :=
  let a := fresh in let arg := fresh in let st := fresh in
  intros (a & arg & st & ? & ? & ? & ? & ?); same_args; same_find;
  simplify_eq/=; try congruence; try done; try lia.

Ltac not_unanswerable :=
  let a := fresh in let rest := fresh in let Hin := fresh in
  intros ? (a & rest & ? & ? & Hin & ?); same_args; simplify_eq/=;
  try congruence; try done;
  try (apply Hin; apply commands_iff; tauto).

Ltac end_last :=
  solve [ (exists [] + eexists [_] + eexists [_; _] + eexists [_; _; _] +
           eexists [_; _; _; _] + eexists [_; _; _; _; _] +
           eexists [_; _; _; _; _; _]);
          eexists; split_and!;
          [reflexivity | by repeat constructor | reflexivity] ].

Ltac answered :=
  right; right; split_and!; [not_subscribed|not_unanswerable|end_last].

(** The shape of every answer of [serveConn] to a decoded request. *)
Lemma serveConn_shape c w args :
  decodeArgs c = inr args →
  declared_states w →
  ∃ evs, added w (serveConn c w).2 evs ∧
    ((subscribes c w ∧ no_End evs) ∨
     (¬ subscribes c w ∧ ∃ e,
        unanswerable c w e ∧ no_End evs ∧
        (serveConn c w).1 = Return (Some e)) ∨
     (¬ subscribes c w ∧ (∀ e, ¬ unanswerable c w e) ∧
      ∃ pre res,
        evs = pre ++ [Response (fd c) respEnd "" res] ∧ no_End pre ∧
        (serveConn c w).1 = Return res)).
Proof.
  intros Hargs Hdecl. unfold serveConn, added. rewrite Hargs.
  destruct args as [|a rest].
  { st_simpl. unfold encodeResponse. simpl. eexists. split; [done|].
    right; right. split_and!; [not_subscribed|not_unanswerable|].
    exists []. eexists. split_and!; [done|constructor|done]. }
  unfold resolve.
  destruct (needs_service (ToLower a)) eqn:Hneeds.
  - pose proof Hneeds as Hcmd. apply needs_service_iff in Hcmd.
    destruct (decide (length (a :: rest) ≠ 2%nat)) as [Hlen|Hlen].
    { st_simpl. unfold encodeResponse. simpl. eexists. split.
      { by rewrite <- app_assoc. }
      right; right. split_and!; [not_subscribed|not_unanswerable|].
      eexists [_]. eexists. split_and!; [done|by repeat constructor|done]. }
    destruct rest as [|arg [|??]]; simpl in Hlen; try lia. clear Hlen.
    st_simpl. rewrite find_service_spec.
    destruct (list_find _ _) as [[i0 st]|] eqn:Hfind; simpl.
    2:{ unfold encodeResponse. simpl. eexists. split.
      { by rewrite <- app_assoc. }
      right; right. split_and!; [not_subscribed|not_unanswerable|].
      eexists [_]. eexists. split_and!; [done|by repeat constructor|done]. }
    unfold command, startService, stopService, set_monitor.
    destruct Hcmd as [E|[E|[E|E]]]; rewrite E in *; simpl; st_unfold; simpl.
    + (* start *)
      destruct (decide (State (heap w !!! st) = StateStarted)); simpl.
      { unfold encodeResponse. simpl. eexists. split.
        { by rewrite <- !app_assoc. }
        answered. }
      unfold encodeResponse, call_Start. simpl.
      destruct (Start _ _) as [s1 [e|]]; simpl.
      all: rewrite <- !app_assoc; eexists; (split; [done|]); answered.
    + (* stop *)
      destruct (decide (State (heap w !!! st) ≠ StateStarted)); simpl.
      { unfold encodeResponse. simpl. eexists. split.
        { by rewrite <- !app_assoc. }
        answered. }
      unfold encodeResponse, call_Stop. simpl.
      destruct (Stop _ _) as [s1 [e|]]; simpl.
      all: rewrite <- !app_assoc; eexists; (split; [done|]); answered.
    + (* restart *)
      destruct (decide (State (heap w !!! st) = StateStarted)); simpl.
      2:{ unfold encodeResponse. simpl. eexists. split; [done|]. answered. }
      unfold encodeResponse, call_Stop, call_Start. simpl.
      destruct (Stop _ _) as [s1 [e1|]]; simpl.
      { rewrite <- !app_assoc; eexists; (split; [done|]); answered. }
      destruct (Start _ _) as [s2 [e2|]]; simpl.
      all: rewrite <- !app_assoc; eexists; (split; [done|]); answered.
    + (* log *)
      destruct (decide (State (heap w !!! st) ≠ StateStarted)); simpl.
      { unfold encodeResponse. simpl.
        rewrite <- !app_assoc; eexists; (split; [done|]); answered. }
      destruct (decide (monitor (heap w !!! st) ≠ None)); simpl.
      { unfold encodeResponse. simpl.
        rewrite <- !app_assoc; eexists; (split; [done|]); answered. }
      match goal with |- context [log_stream c ?ls ?w1] =>
        destruct (log_stream_no_End c ls w1) as (evs & Hevs & Hno);
        destruct (log_stream c ls w1) as [[[]|] w2] eqn:Hs end;
        unfold added in Hevs; simpl in Hevs; simpl.
      all: exists evs; (split; [done|]); left; split; [|done].
      all: exists a, arg, st; split_and!; try done.
      all: try (unfold named; by rewrite Hfind).
      all: try by apply dec_stable.
      all: by destruct (monitor (heap w !!! st)) eqn:Hm;
             [exfalso; eauto|].
  - assert (¬ (ToLower a = "start" ∨ ToLower a = "stop" ∨
               ToLower a = "restart" ∨ ToLower a = "log")) as Hcmd.
    { rewrite <- needs_service_iff. by rewrite Hneeds. }
    st_simpl. unfold command.
    destruct (decide (ToLower a = "")) as [E|Hne].
    { st_simpl. unfold encodeResponse. simpl.
      eexists; (split; [done|]); answered. }
    destruct (decide (ToLower a = "start")); [tauto|].
    destruct (decide (ToLower a = "stop")); [tauto|].
    destruct (decide (ToLower a = "restart")); [tauto|].
    destruct (decide (ToLower a = "list")) as [E|Hnl].
    { st_simpl.
      destruct (list_rows_declared (heap w) (services_list w)
                  ("SERVICE" +:+ tab +:+ "STATUS" +:+ tab +:+ nl))
        as [text ->]; [exact Hdecl|].
      unfold encodeResponse. simpl.
      rewrite <- !app_assoc; eexists; (split; [done|]); answered. }
    destruct (decide (ToLower a = "log")); [tauto|].
    st_simpl. unfold encodeResponse. simpl.
    destruct (written (clock w)) as [e|] eqn:Hw; simpl.
    + eexists. split; [done|]. right; left. split; [not_subscribed|].
      exists e. split_and!; [|by repeat constructor|done].
      exists a, rest. split_and!; [done..| |done].
      rewrite commands_iff. tauto.
    + rewrite <- !app_assoc; eexists; (split; [done|]); answered.
Qed.

(** C6. Every decoded request other than a [log] that installs its
    subscriber is answered by a stream whose last message is the one
    [End] marker it contains, with one exception: for a word that is no
    command, [serveConn] returns the error of a failed write of the error
    message at once, without the marker. A [log] that installs its
    subscriber never writes the marker. (The services of the registry are
    in declared states, so that [list] does not panic.) *)
Theorem serveConn_end_marker c w args :
  decodeArgs c = inr args →
  declared_states w →
  ∃ evs, added w (serveConn c w).2 evs ∧
    (subscribes c w → no_End evs) ∧
    (∀ e, unanswerable c w e →
       no_End evs ∧ (serveConn c w).1 = Return (Some e)) ∧
    (¬ subscribes c w → (∀ e, ¬ unanswerable c w e) →
       ∃ pre res,
         evs = pre ++ [Response (fd c) respEnd "" res] ∧ no_End pre ∧
         (serveConn c w).1 = Return res).
Proof.
  intros Hargs Hdecl.
  destruct (serveConn_shape c w args Hargs Hdecl) as (evs & Hevs & Hshape).
  exists evs. split; [done|].
  destruct Hshape as [[Hsub Hno]|[(Hsub & e & Hun & Hno & Hr)|
                                  (Hsub & Hun & Hend)]].
  - split_and!; [done| |done].
    intros e (a & rest & Ha & _ & Hin & _).
    destruct Hsub as (a' & arg & st & Ha' & Hlog & _).
    rewrite Ha in Ha'. simplify_eq. exfalso. apply Hin.
    rewrite Hlog. apply commands_iff. tauto.
  - split_and!; [done| |intros _ Hun'; by destruct (Hun' e)].
    intros e' (a' & rest' & _ & _ & _ & Hw').
    destruct Hun as (a & rest & _ & _ & _ & Hw).
    rewrite Hw in Hw'. by simplify_eq.
  - split_and!; [done| |done].
    intros e He. by destruct (Hun e).
Qed.

End end_marker.

(** ** The registry under mutation *)

Lemma StronglySorted_weaken {A} (R R' : A → A → Prop) (l : list A) :
  (∀ x y, x ∈ l → y ∈ l → R x y → R' x y) →
  StronglySorted R l → StronglySorted R' l.
Proof.
  intros HR Hs. induction Hs as [|x l Hs IH Hx]; constructor.
  - apply IH. intros y z Hy Hz. apply HR; by right.
  - apply Forall_forall. intros y Hy. apply HR; [left|by right|].
    by eapply Forall_forall in Hx.
Qed.

Lemma StronglySorted_cut {A} (R : A → A → Prop) (l : list A) (i : nat) :
  StronglySorted R l → StronglySorted R (take i l ++ drop (S i) l).
Proof.
  intros Hs. revert i. induction Hs as [|x l Hs IH Hx]; intros i.
  - rewrite take_nil, drop_nil. constructor.
  - destruct i as [|i]; simpl; [by rewrite drop_0|].
    constructor; [apply IH|].
    apply Forall_app. split.
    + by apply Forall_take.
    + by apply Forall_drop.
Qed.

Lemma settle_ext {A} (k1 k2 : A → Z) (x : A) (l : list A) :
  k1 x = k2 x → (∀ y, y ∈ l → k1 y = k2 y) → settle k1 x l = settle k2 x l.
Proof.
  intros Hx. induction l as [|y l IH]; intros Hl; [done|].
  simpl. unfold Less. rewrite Hx, (Hl y) by left.
  rewrite IH by (intros; apply Hl; by right). done.
Qed.

Lemma Stable_ext {A} (k1 k2 : A → Z) (l : list A) :
  (∀ y, y ∈ l → k1 y = k2 y) → Stable k1 l = Stable k2 l.
Proof.
  induction l as [|x l IH] using rev_ind; intros Hl; [done|].
  rewrite !Stable_snoc.
  rewrite IH by (intros; apply Hl, elem_of_app; by left).
  apply settle_ext.
  - apply Hl, elem_of_app. right. by left.
  - intros y Hy. apply Hl, elem_of_app. left.
    by rewrite (Stable_perm k2 l) in Hy.
Qed.

(** Sorting a list that is in allocation order orders it by priority first
    and by allocation second. *)
Lemma Stable_before {A} (key : A → Z) (T : A → A → Prop) (l : list A) :
  StronglySorted T l → StronglySorted (before key T) (Stable key l).
Proof.
  induction l as [|x l IH] using rev_ind; intros Hs; [constructor|].
  rewrite Stable_snoc. apply StronglySorted_app in Hs as (Hx & Hl & _).
  apply settle_before; [by apply IH|].
  apply Forall_forall. intros y Hy. rewrite (Stable_perm key l) in Hy.
  apply Hx; [done|]. by left.
Qed.

Lemma filter_all {A} (P : A → Prop) `{!∀ x, Decision (P x)} (l : list A) :
  Forall P l → filter P l = l.
Proof.
  induction 1 as [|x l Hx _ IH]; [done|].
  by rewrite filter_cons_True, IH.
Qed.

Lemma filter_swap {A} (P Q : A → Prop)
    `{!∀ x, Decision (P x), !∀ x, Decision (Q x)} (l : list A) :
  filter P (filter Q l) = filter Q (filter P l).
Proof.
  induction l as [|x l IH]; [done|].
  rewrite !filter_cons.
  destruct (decide (Q x)), (decide (P x));
    rewrite ?filter_cons_True, ?filter_cons_False by done; by rewrite IH.
Qed.

(** In a list without repetition, keeping the elements that survive the
    removal of one position is that removal. *)
Lemma filter_cut {A} `{EqDecision A} (l : list A) (j : nat) :
  NoDup l →
  filter (λ x, x ∈ take j l ++ drop (S j) l) l = take j l ++ drop (S j) l.
Proof.
  intros Hnd. destruct (l !! j) as [x|] eqn:Hj.
  - pose proof (take_drop_middle l j x Hj) as Hl.
    rewrite <- Hl in Hnd at 1.
    apply NoDup_app in Hnd as (_ & Hx & Hnd).
    apply NoDup_cons in Hnd as [Hxd _].
    rewrite <- Hl at 1. rewrite filter_app, filter_cons_False.
    + rewrite !filter_all; [done|..]; apply Forall_forall; intros y Hy;
        apply elem_of_app; auto.
    + intros Hin. apply elem_of_app in Hin as [Hin|Hin]; [|done].
      apply (Hx x Hin). left.
  - apply lookup_ge_None in Hj.
    rewrite take_ge, drop_ge, app_nil_r by lia.
    apply filter_all, Forall_forall. auto.
Qed.

Section frame_facts.
Context `{ConfigImmutable}.

Lemma same_registry_refl w : same_registry w w.
Proof. done. Qed.

Lemma same_registry_trans w1 w2 w3 :
  same_registry w1 w2 → same_registry w2 w3 → same_registry w1 w3.
Proof.
  intros (L1 & N1 & C1) (L2 & N2 & C2). split_and!; [congruence..|].
  intros q. by rewrite C2, C1.
Qed.

Lemma Config_insert (h : list service) p s q :
  Config s = Config (h !!! p) → Config (<[p:=s]> h !!! q) = Config (h !!! q).
Proof.
  intros Hs. destruct (decide (p = q)) as [<-|Hne].
  - destruct (decide (p < length h)%nat).
    + by rewrite list_lookup_total_insert_eq.
    + by rewrite list_insert_ge by lia.
  - by rewrite list_lookup_total_insert_ne.
Qed.

Lemma frame_ret {A} (a : A) : frame (mret a).
Proof. intros w. apply same_registry_refl. Qed.

Lemma frame_bind {A B} (m : St A) (f : A → St B) :
  frame m → (∀ a, frame (f a)) → frame (m ≫= f).
Proof.
  intros Hm Hf w. st_simpl. specialize (Hm w).
  destruct (m w) as [a w1]. eapply same_registry_trans; [exact Hm|].
  apply Hf.
Qed.

Lemma frame_fmap {A B} (m : St A) (f : A → B) : frame m → frame (f <$> m).
Proof.
  intros Hm w. st_simpl. specialize (Hm w). by destruct (m w) as [a w1].
Qed.

Lemma frame_deref p : frame (deref p).
Proof. intros w. apply same_registry_refl. Qed.

Lemma frame_get_list : frame get_list.
Proof. intros w. apply same_registry_refl. Qed.

Lemma frame_encodeResponse c t msg : frame (encodeResponse c t msg).
Proof. intros w. done. Qed.

Lemma frame_call_Start p : frame (call_Start p).
Proof.
  intros w. unfold call_Start.
  pose proof (Start_Config (clock w) (heap w !!! p)) as HC.
  destruct (Start _ _) as [s r]. split_and!; simpl; [done| |].
  - by rewrite length_insert.
  - intros q. by apply Config_insert.
Qed.

Lemma frame_call_Stop p : frame (call_Stop p).
Proof.
  intros w. unfold call_Stop.
  pose proof (Stop_Config (clock w) (heap w !!! p)) as HC.
  destruct (Stop _ _) as [s r]. split_and!; simpl; [done| |].
  - by rewrite length_insert.
  - intros q. by apply Config_insert.
Qed.

Lemma frame_set_monitor p m : frame (set_monitor p m).
Proof.
  intros w. unfold set_monitor. st_simpl. split_and!; simpl; [done| |].
  - by rewrite length_insert.
  - intros q. by apply Config_insert.
Qed.

Ltac frame_step :=
  lazymatch goal with
  | |- frame (mbind ?f ?m) => apply (frame_bind m f); [|intros]
  | |- frame (fmap ?f ?m) => apply (frame_fmap m f)
  | |- frame (mret _) => apply frame_ret
  | |- frame (deref _) => apply frame_deref
  | |- frame get_list => apply frame_get_list
  | |- frame (encodeResponse _ _ _) => apply frame_encodeResponse
  | |- frame (call_Start _) => apply frame_call_Start
  | |- frame (call_Stop _) => apply frame_call_Stop
  | |- frame (set_monitor _ _) => apply frame_set_monitor
  | |- frame (if decide _ then _ else _) => case_decide
  | |- frame (if ?b then _ else _) => destruct b
  | |- frame (match ?x with _ => _ end) => destruct x
  end.

Ltac frames := repeat frame_step.

Lemma frame_startService c s : frame (startService c s).
Proof. unfold startService. frames. Qed.

Lemma frame_stopService c s : frame (stopService c s).
Proof. unfold stopService. frames. Qed.

Lemma frame_find_service arg vs : frame (find_service arg vs).
Proof. induction vs as [|v vs IH]; simpl; frames. exact IH. Qed.

Lemma frame_log_monitor c prefix b : frame (log_monitor c prefix b).
Proof. unfold log_monitor. frames. Qed.

Lemma frame_log_stream c lines : frame (log_stream c lines).
Proof.
  induction lines as [|[prefix b] lines IH]; simpl; frames;
    [apply frame_log_monitor|exact IH].
Qed.

Lemma frame_resolve c args cmd : frame (resolve c args cmd).
Proof. unfold resolve. frames; try apply frame_find_service; frames. Qed.

Lemma frame_command c cmd st name : frame (command c cmd st name).
Proof.
  unfold command. frames;
    try apply frame_startService; try apply frame_stopService;
    try apply frame_log_stream; frames.
  all: intros w; apply same_registry_refl.
Qed.

Lemma frame_serveConn c : frame (serveConn c).
Proof.
  unfold serveConn. frames; try apply frame_resolve.
  all: try (destruct a as [[??]?]); frames; try apply frame_command; frames.
Qed.

End frame_facts.

Section registry.
Context `{ConfigImmutable}.

Lemma in_insertion_order_sorted w : in_insertion_order w → sorted w.
Proof. apply before_ascending. Qed.

Lemma priority_same (h h' : list service) q :
  Config (h' !!! q) = Config (h !!! q) → priority h' q = priority h q.
Proof. unfold priority. by intros ->. Qed.

Lemma ascending_ext (h h' : list service) l :
  (∀ p, p ∈ l → priority h' p = priority h p) →
  ascending (priority h) l → ascending (priority h') l.
Proof.
  intros E. apply StronglySorted_weaken. intros x y Hx Hy.
  by rewrite !E.
Qed.

Lemma before_ext (h h' : list service) l :
  (∀ p, p ∈ l → priority h' p = priority h p) →
  StronglySorted (before (priority h) (λ p q : ptr, (p < q)%nat)) l →
  StronglySorted (before (priority h') (λ p q : ptr, (p < q)%nat)) l.
Proof.
  intros E. apply StronglySorted_weaken. intros x y Hx Hy.
  unfold before. by rewrite !E.
Qed.

Lemma priority_alloc (h : list service) s p :
  (p < length h)%nat → priority (h ++ [s]) p = priority h p.
Proof. intros Hp. unfold priority. by rewrite lookup_total_app_l. Qed.

Lemma priority_insert (h : list service) p s q :
  Config s = Config (h !!! p) → priority (<[p:=s]> h) q = priority h q.
Proof. intros Hs. apply priority_same. by apply Config_insert. Qed.

(** *** The effect of one event on the registry *)

Lemma on_create_registry ParseConfig name w :
  let w' := (on_create ParseConfig name w).2 in
  let s := length (heap w) in
  length (heap w') = S (length (heap w)) ∧
  (∀ p, (p < s)%nat → priority (heap w') p = priority (heap w) p) ∧
  services_list w' = Stable (priority (heap w')) (services_list w ++ [s]).
Proof.
  unfold on_create. st_simpl. unfold call_Start. simpl.
  pose proof (Start_Config
    (clock {| heap := heap w ++ [newService (ParseConfig name)];
              services_list := Stable
                (priority (heap w ++ [newService (ParseConfig name)]))
                (services_list w ++ [length (heap w)]);
              trace := (trace w ++
                [Debugf ("added service " +:+
                         ServiceName (ParseConfig name))]) ++ [CallSort] |})
    ((heap w ++ [newService (ParseConfig name)]) !!! length (heap w)))
    as HC.
  destruct (Start _ _) as [s' r]. simpl in *. split_and!.
  - rewrite length_insert, length_app. simpl. lia.
  - intros p Hp. rewrite priority_insert by done.
    by apply priority_alloc.
  - apply Stable_ext. intros p _. symmetry. by apply priority_insert.
Qed.

Lemma call_Stop_registry p w :
  let w' := (call_Stop p w).2 in
  services_list w' = services_list w ∧
  length (heap w') = length (heap w) ∧
  ∀ q, priority (heap w') q = priority (heap w) q.
Proof.
  destruct (frame_call_Stop p w) as (L & N & C). split_and!; [done..|].
  intros q. by apply priority_same.
Qed.

Lemma call_Start_registry p w :
  let w' := (call_Start p w).2 in
  services_list w' = services_list w ∧
  length (heap w') = length (heap w) ∧
  ∀ q, priority (heap w') q = priority (heap w) q.
Proof.
  destruct (frame_call_Start p w) as (L & N & C). split_and!; [done..|].
  intros q. by apply priority_same.
Qed.

Lemma on_delete_registry name ii todo w :
  let w' := (on_delete name ii todo w).2 in
  length (heap w') = length (heap w) ∧
  (∀ q, priority (heap w') q = priority (heap w) q) ∧
  (services_list w' = services_list w ∨
   ∃ j, services_list w' =
        take j (services_list w) ++ drop (S j) (services_list w)).
Proof.
  revert ii. induction todo as [|todo IH]; intros ii; simpl.
  { split_and!; [done..|by left]. }
  st_simpl.
  destruct (decide (File (Config (heap w !!! (services_list w !!! ii)))
                    = name)) as [Hf|Hf]; [|apply IH].
  simpl.
  destruct (decide (State (heap w !!! (services_list w !!! ii))
                    = StateStarted)) as [Hs|Hs]; simpl.
  - match goal with |- context [call_Stop ?p ?w1] =>
      destruct (call_Stop_registry p w1) as (L & N & C);
      destruct (call_Stop p w1) as [r w2] end.
    simpl in *. split_and!; [done..|]. right. exists ii. by rewrite L.
  - split_and!; [done..|]. right. by exists ii.
Qed.

Lemma on_modify_registry ParseConfig name vs w :
  let w' := (on_modify ParseConfig name vs w).2 in
  length (heap w') = length (heap w) ∧
  (w' = w ∨
   services_list w' = Stable (priority (heap w')) (services_list w)).
Proof.
  induction vs as [|v vs IH]; simpl; [by split; [|left]|].
  st_simpl.
  destruct (decide (File (Config (heap w !!! v)) = name)) as [Hf|Hf];
    [|apply IH].
  destruct (decide (Config (heap w !!! v) = ParseConfig name)) as [Hc|Hc];
    [by split; [|left]|].
  simpl.
  destruct (decide (State (heap w !!! v) = StateStarted)) as [Hs|Hs]; simpl.
  - match goal with |- context [call_Stop ?p ?w1] =>
      destruct (call_Stop_registry p w1) as (L & N & C);
      destruct (call_Stop p w1) as [r w2] end.
    simpl in *. destruct (bool_decide (r = None)); simpl.
    + match goal with |- context [call_Start ?p ?w1] =>
        destruct (call_Start_registry p w1) as (L' & N' & C');
        destruct (call_Start p w1) as [r' w3] end.
      simpl in *. split; [by rewrite N', length_insert|]. right.
      rewrite L', L. apply Stable_ext. intros q _. by rewrite C'.
    + split; [by rewrite length_insert|]. right. by rewrite L.
  - split; [by rewrite length_insert|]. by right.
Qed.

Lemma effect_refl w : effect w w.
Proof. left. split_and!; [done..|by left]. Qed.

Lemma on_event_effect ParseConfig ev w :
  effect w (on_event ParseConfig ev w).2.
Proof.
  unfold on_event. destruct (shouldIgnoreFile _); [apply effect_refl|].
  destruct (IsCreate ev).
  { right; left. apply on_create_registry. }
  destruct (IsDelete ev || IsRename ev).
  { left. st_simpl. apply on_delete_registry. }
  destruct (IsModify ev).
  { st_simpl.
    destruct (on_modify_registry ParseConfig
                (filepath_Base (ev_Name ev)) (services_list w) w)
      as (N & [E|E]).
    - rewrite E. apply effect_refl.
    - right; right. done. }
  left. split_and!; [done..|by left].
Qed.

Lemma do_step_effect s w : effect w (do_step s w).
Proof.
  destruct s as [[ParseConfig ev|err]|c]; simpl.
  - apply on_event_effect.
  - left. split_and!; [done..|by left].
  - destruct (frame_serveConn c w) as (L & N & C). left.
    split_and!; [done| |by left]. intros q. by apply priority_same.
Qed.

(** *** Invariants *)

Lemma effect_wf w w' : effect w w' → wf w → wf w'.
Proof.
  unfold wf. rewrite !Forall_forall.
  intros [(N & P & [L|[j L]])|[(N & P & L)|(N & L)]] Hwf p Hp;
    rewrite L in Hp; rewrite N.
  - auto.
  - apply Hwf. apply elem_of_app in Hp as [Hp|Hp].
    + by eapply subseteq_take.
    + by eapply subseteq_drop.
  - rewrite Stable_perm in Hp. apply elem_of_app in Hp as [Hp|Hp].
    + apply Hwf in Hp. lia.
    + apply list_elem_of_singleton in Hp. lia.
  - rewrite Stable_perm in Hp. auto.
Qed.

Lemma effect_sorted w w' : effect w w' → sorted w → sorted w'.
Proof.
  unfold sorted.
  intros [(N & P & [L|[j L]])|[(N & P & L)|(N & L)]] Hs; rewrite L.
  - eapply ascending_ext; [|exact Hs]. auto.
  - apply StronglySorted_cut. eapply ascending_ext; [|exact Hs]. auto.
  - apply Stable_ascending.
  - apply Stable_ascending.
Qed.

Lemma effect_insertion_order w w' :
  effect w w' → wf w →
  (∀ p, p ∈ services_list w → priority (heap w') p = priority (heap w) p) →
  in_insertion_order w → in_insertion_order w'.
Proof.
  unfold in_insertion_order.
  intros [(N & P & [L|[j L]])|[(N & P & L)|(N & L)]] Hwf Hkeep Hs;
    rewrite L.
  - eapply before_ext; [|exact Hs]. auto.
  - apply StronglySorted_cut. eapply before_ext; [|exact Hs]. auto.
  - pose proof (before_ext _ (heap w') _ Hkeep Hs) as Hs'.
    rewrite Stable_snoc, Stable_id by (by eapply before_ascending).
    apply settle_before; [done|]. exact Hwf.
  - pose proof (before_ext _ (heap w') _ Hkeep Hs) as Hs'.
    by rewrite Stable_id by (by eapply before_ascending).
Qed.

Lemma effect_NoDup w w' :
  effect w w' → wf w → NoDup (services_list w) → NoDup (services_list w').
Proof.
  intros [(N & P & [L|[j L]])|[(N & P & L)|(N & L)]] Hwf Hnd; rewrite L.
  - done.
  - rewrite <- delete_take_drop. apply (sublist_NoDup _ (services_list w)); [exact Hnd|apply sublist_delete].
  - rewrite Stable_perm. apply NoDup_app. split_and!; [done| |].
    + intros p Hp Hq. apply list_elem_of_singleton in Hq.
      unfold wf in Hwf. rewrite Forall_forall in Hwf. apply Hwf in Hp. lia.
    + apply NoDup_singleton.
  - by rewrite Stable_perm.
Qed.

Lemma effect_ties_kept w w' :
  effect w w' → wf w → NoDup (services_list w) → ties_kept w w'.
Proof.
  intros [(N & P & [L|[j L]])|[(N & P & L)|(N & L)]] Hwf Hnd v; rewrite L.
  - done.
  - f_equal. rewrite filter_cut by done.
    apply filter_all, Forall_forall. intros p Hp.
    apply elem_of_app in Hp as [Hp|Hp];
      [by eapply subseteq_take|by eapply subseteq_drop].
  - rewrite (filter_swap _ (λ p, p ∈ services_list w)).
    rewrite Stable_stable, !filter_app.
    rewrite !(filter_swap (λ p, p ∈ services_list w)).
    rewrite (filter_all (λ p, p ∈ services_list w) (services_list w))
      by (by apply Forall_forall).
    rewrite (filter_none (λ p, p ∈ services_list w) [length (heap w)]).
    2:{ constructor; [|constructor]. intros Hp.
        unfold wf in Hwf. rewrite Forall_forall in Hwf. apply Hwf in Hp.
        lia. }
    rewrite filter_nil, app_nil_r. f_equal. symmetry.
    apply filter_all, Forall_forall. intros p Hp. rewrite Stable_perm.
    apply elem_of_app. by left.
  - rewrite (filter_swap _ (λ p, p ∈ services_list w)).
    rewrite Stable_stable.
    rewrite (filter_swap (λ p, p ∈ services_list w)).
    rewrite (filter_all (λ p, p ∈ services_list w) (services_list w))
      by (by apply Forall_forall).
    f_equal. symmetry.
    apply filter_all, Forall_forall. intros p Hp. by rewrite Stable_perm.
Qed.

(** *** Startup *)

Lemma starts_app evs1 evs2 : starts (evs1 ++ evs2) = starts evs1 ++ starts evs2.
Proof. unfold starts. apply omap_app. Qed.

Lemma populate_services_registry configs w :
  let w' := (populate_services configs w).2 in
  let n := length (heap w) in
  length (heap w') = (n + length configs)%nat ∧
  (∀ p, (p < n)%nat → Config (heap w' !!! p) = Config (heap w !!! p)) ∧
  services_list w' = services_list w ++ seq n (length configs) ∧
  (∀ i cfg, configs !! i = Some cfg →
            Config (heap w' !!! (n + i)%nat) = cfg) ∧
  ∃ evs, added w w' evs ∧ starts evs = seq n (length configs).
Proof.
  revert w. induction configs as [|v configs IH]; intros w; simpl.
  { split_and!; [lia|done|by rewrite app_nil_r|done|].
    exists []. split; [|done]. unfold added. by rewrite app_nil_r. }
  st_simpl.
  pose proof (frame_call_Start (length (heap w))
    {| heap := heap w ++ [newService v];
       services_list := services_list w ++ [length (heap w)];
       trace := trace w |}) as (L & N & C).
  pose proof (f_equal trace (eq_refl
    ((call_Start (length (heap w))
       {| heap := heap w ++ [newService v];
          services_list := services_list w ++ [length (heap w)];
          trace := trace w |}).2))) as T.
  unfold call_Start at 2 in T.
  destruct (Start _ _) as [s1 r1] eqn:HS in T. simpl in T.
  destruct (call_Start _ _) as [r w1]. simpl in *.
  rewrite length_app in N. simpl in N.
  destruct (IH w1) as (N' & C' & L' & G' & evs & T' & S').
  split_and!.
  - rewrite N', N. lia.
  - intros p Hp. rewrite C' by lia. rewrite C.
    by rewrite lookup_total_app_l.
  - rewrite L', L, N, <- app_assoc. simpl.
    by replace (length (heap w) + 1)%nat with (S (length (heap w))) by lia.
  - intros [|i] cfg Hi; simpl in Hi.
    + simplify_eq. rewrite Nat.add_0_r, C' by lia. rewrite C.
      rewrite lookup_total_app_r by lia. by rewrite Nat.sub_diag.
    + rewrite <- (G' i cfg Hi). f_equal. f_equal. lia.
  - exists (CallStart (length (heap w)) r1 :: evs). split.
    + unfold added in *. rewrite T', T. by rewrite <- app_assoc.
    + simpl. rewrite S', N. f_equal. f_equal. lia.
Qed.

Lemma StronglySorted_seq a n :
  StronglySorted (λ p q : ptr, (p < q)%nat) (seq a n).
Proof.
  revert a. induction n as [|n IH]; intros a; simpl; constructor; [done|].
  apply Forall_forall. intros q Hq. apply elem_of_seq in Hq. lia.
Qed.

(** The registry after startup, and the calls of [Start] made on the
    way: one per configuration, in the order of [configs]. *)
Lemma booted_registry configs :
  let w := booted configs in
  length (heap w) = length configs ∧
  services_list w = Stable (priority (heap w)) (seq 0 (length configs)) ∧
  (λ p, Config (heap w !!! p)) <$> starts (trace w) = configs.
Proof.
  unfold booted, daemonMain_boot. st_simpl.
  pose proof (populate_services_registry configs
    {| heap := []; services_list := []; trace := [] |})
    as (N & _ & L & G & evs & T & S).
  destruct (populate_services _ _) as [[] w1]. simpl in *.
  unfold added in T. simpl in T. split_and!; [done|by rewrite L|].
  rewrite T, starts_app, S. simpl. rewrite app_nil_r.
  apply list_eq. intros i. rewrite list_lookup_fmap.
  destruct (configs !! i) as [cfg|] eqn:Hi.
  - rewrite (lookup_seq_lt _ _ i) by (by eapply lookup_lt_Some).
    simpl. f_equal. by apply G.
  - rewrite lookup_seq_ge; [done|]. by apply lookup_ge_None.
Qed.

Lemma booted_wf configs : wf (booted configs).
Proof.
  destruct (booted_registry configs) as (N & L & _).
  unfold wf. rewrite L, Forall_forall. intros p Hp.
  rewrite Stable_perm in Hp. apply elem_of_seq in Hp. lia.
Qed.

Lemma booted_insertion_order configs : in_insertion_order (booted configs).
Proof.
  destruct (booted_registry configs) as (N & L & _).
  unfold in_insertion_order. rewrite L.
  apply Stable_before, StronglySorted_seq.
Qed.

(** *** The registry along a run *)

Lemma run_snoc steps s w : run (steps ++ [s]) w = do_step s (run steps w).
Proof. unfold run. by rewrite foldl_app. Qed.

Lemma run_wf configs steps : wf (run steps (booted configs)).
Proof.
  induction steps as [|s steps IH] using rev_ind; [apply booted_wf|].
  rewrite run_snoc. eapply effect_wf; [apply do_step_effect|done].
Qed.

Lemma run_NoDup configs steps : NoDup (services_list (run steps (booted configs))).
Proof.
  induction steps as [|s steps IH] using rev_ind.
  - destruct (booted_registry configs) as (_ & L & _).
    change (run [] (booted configs)) with (booted configs).
    rewrite L, Stable_perm. apply NoDup_seq.
  - rewrite run_snoc.
    eapply effect_NoDup; [apply do_step_effect|apply run_wf|done].
Qed.

Lemma run_sorted configs steps : sorted (run steps (booted configs)).
Proof.
  induction steps as [|s steps IH] using rev_ind.
  - apply in_insertion_order_sorted, booted_insertion_order.
  - rewrite run_snoc. eapply effect_sorted; [apply do_step_effect|done].
Qed.

Lemma keeps_priorities_snoc steps s w :
  keeps_priorities (steps ++ [s]) w ↔
  keeps_priorities steps w ∧
  ∀ p, p ∈ services_list (run steps w) →
       priority (heap (do_step s (run steps w))) p =
       priority (heap (run steps w)) p.
Proof.
  revert w. induction steps as [|s' steps IH]; intros w; simpl.
  - tauto.
  - rewrite IH. unfold run. simpl. tauto.
Qed.

Lemma run_insertion_order configs steps :
  keeps_priorities steps (booted configs) →
  in_insertion_order (run steps (booted configs)).
Proof.
  induction steps as [|s steps IH] using rev_ind; intros Hk.
  - apply booted_insertion_order.
  - apply keeps_priorities_snoc in Hk as [Hk Hs]. rewrite run_snoc.
    eapply effect_insertion_order;
      [apply do_step_effect|apply run_wf|done|by apply IH].
Qed.

(** C3. At every release of the registry lock, that is after startup and
    after every step of a run, the registry is sorted by ascending
    priority. Every step breaks ties stably, with respect to the order of
    the registry it finds; hence services of equal priority stand in the
    order of their insertion as long as no step has changed the priority of
    a registered service. *)
Theorem registry_sorted_at_every_unlock configs steps :
  let w := run steps (booted configs) in
  sorted w ∧
  (∀ s, ties_kept w (do_step s w)) ∧
  (keeps_priorities steps (booted configs) → in_insertion_order w).
Proof.
  split_and!.
  - apply run_sorted.
  - intros s. apply effect_ties_kept;
      [apply do_step_effect|apply run_wf|apply run_NoDup].
  - apply run_insertion_order.
Qed.

End registry.

(** ** Shutdown *)

Lemma StronglySorted_reverse {A} (R : A → A → Prop) (l : list A) :
  StronglySorted R l → StronglySorted (flip R) (reverse l).
Proof.
  induction 1 as [|x l Hs IH Hx]; [constructor|].
  rewrite reverse_cons. apply StronglySorted_app. split_and!.
  - intros y z Hy Hz. apply list_elem_of_singleton in Hz as ->.
    rewrite elem_of_reverse in Hy. unfold flip.
    by eapply Forall_forall in Hx.
  - done.
  - repeat constructor.
Qed.

Section shutdown.
Context `{ConfigImmutable}.

Lemma dispatch_stops_trace l ii w :
  (ii ≤ length l)%nat →
  dispatch_stops l ii w =
  ((), {| heap := heap w; services_list := services_list w;
          trace := trace w ++ (Go <$> reverse (take ii l)) |}).
Proof.
  revert w. induction ii as [|ii IH]; intros w Hii; simpl.
  - rewrite app_nil_r. by destruct w.
  - st_simpl. rewrite IH by lia. simpl.
    destruct (lookup_lt_is_Some_2 l ii) as [x Hx]; [lia|].
    rewrite (take_S_r l ii x Hx), reverse_snoc, fmap_cons.
    rewrite (list_lookup_total_correct l ii x Hx).
    by rewrite <- app_assoc.
Qed.

Lemma run_stops_trace completed wg w :
  ∃ evs, added w (run_stops completed wg w).2 evs ∧
    stops evs = completed ∧ dispatched evs = [] ∧
    (run_stops completed wg w).1 = (wg - length completed)%nat.
Proof.
  unfold added.
  revert wg w. induction completed as [|s completed IH]; intros wg w; simpl.
  - exists []. split_and!; [by rewrite app_nil_r|done..|lia].
  - st_simpl. unfold call_Stop at 1 2.
    destruct (Stop _ _) as [s1 r1]. simpl.
    match goal with |- context [run_stops completed ?n ?w1] =>
      destruct (IH n w1) as (evs & T & S & D & R);
      destruct (run_stops completed n w1) as [n' w2] end.
    simpl in *. exists (CallStop s r1 :: evs). split_and!.
    + by rewrite T, <- app_assoc.
    + simpl. by rewrite S.
    + done.
    + lia.
Qed.

Lemma dispatched_Go l : dispatched (Go <$> l) = l.
Proof.
  unfold dispatched. induction l as [|p l IH]; simpl; [done|]. by f_equal.
Qed.

Lemma stops_Go l : stops (Go <$> l) = [].
Proof. induction l as [|p l IH]; simpl; done. Qed.

Lemma dispatched_app evs1 evs2 :
  dispatched (evs1 ++ evs2) = dispatched evs1 ++ dispatched evs2.
Proof. unfold dispatched. apply omap_app. Qed.

Lemma stops_app evs1 evs2 : stops (evs1 ++ evs2) = stops evs1 ++ stops evs2.
Proof. unfold stops. apply omap_app. Qed.

(** C2. At shutdown one stop task is dispatched per registered service,
    going through the registry from its last entry to its first: the
    priorities of the dispatched services never increase (services of one
    priority follow each other, in reverse registry order). Each task
    that completes has called [Stop] once, whatever [Stop] returned, and
    [wg.Wait()] returns exactly when every task has completed. *)
Theorem shutdown_stops_in_reverse_order configs steps completed :
  let w := run steps (booted configs) in
  completed ⊆+ services_list w →
  ∃ evs, added w (daemonMain_shutdown completed w).2 evs ∧
    dispatched evs = reverse (services_list w) ∧
    StronglySorted (λ p q, priority (heap w) q ≤ priority (heap w) p)
      (dispatched evs) ∧
    stops evs = completed ∧
    ((daemonMain_shutdown completed w).1 = true ↔
     completed ≡ₚ services_list w).
Proof.
  intros w Hsub. pose proof (run_sorted configs steps) as Hs. fold w in Hs.
  unfold daemonMain_shutdown, added. st_simpl.
  rewrite dispatch_stops_trace by done. rewrite firstn_all.
  match goal with |- context [run_stops completed ?n ?w1] =>
    destruct (run_stops_trace completed n w1) as (evs & T & S & D & R);
    destruct (run_stops completed n w1) as [n' w2] end.
  unfold added in T. simpl in *.
  assert (n' = 0%nat ↔ completed ≡ₚ services_list w) as Hall.
  { rewrite R. pose proof (submseteq_length _ _ Hsub). split.
    - intros Hn. apply submseteq_length_Permutation; [done|lia].
    - intros Hp. apply Permutation_length in Hp. lia. }
  assert (StronglySorted
            (λ p q, priority (heap w) q ≤ priority (heap w) p)
            (reverse (services_list w))) as Hdesc.
  { apply StronglySorted_reverse in Hs.
    eapply StronglySorted_weaken; [|exact Hs]. unfold flip. simpl.
    intros; lia. }
  case_bool_decide as Hn; simpl.
  - exists ((Go <$> reverse (services_list w)) ++ evs ++
            [Debugf "daemon exiting"]).
    rewrite !dispatched_app, !stops_app, dispatched_Go, stops_Go, D, S.
    simpl. rewrite !app_nil_r. split_and!; [|done..|by rewrite <- Hall].
    by rewrite T, <- !app_assoc.
  - exists ((Go <$> reverse (services_list w)) ++ evs).
    rewrite !dispatched_app, !stops_app, dispatched_Go, stops_Go, D, S.
    simpl. rewrite !app_nil_r. split_and!; [|done..|].
    + by rewrite T, <- !app_assoc.
    + split; [done|]. intros Hp. by apply Hall in Hp.
Qed.

End shutdown.

(** ** The quit handshake *)

Section goroutine_facts.
Context `{Collaborators}.

Lemma exec_reachable acts s s' :
  reachable s → exec acts s = Some s' → reachable s'.
Proof.
  revert s. induction acts as [|a acts IH]; intros s Hr He; simpl in He.
  - by simplify_eq.
  - destruct (fire a s) as [s1|] eqn:Hf; [|done].
    eapply IH; [|exact He]. by eapply reachable_fire.
Qed.

End goroutine_facts.

Section quit.
Context `{ConfigImmutable}.

Lemma fire_acknowledged a s s' :
  fire a s = Some s' → acknowledged s → acknowledged s'.
Proof.
  unfold acknowledged. intros Hf (W & S & MW & MS).
  destruct a; simpl in Hf; unfold main_step in Hf;
    repeat case_match; simplify_eq/=; try tauto;
    try (destruct (watcher_looping s), (watcher_stop s); simplify_eq/=);
    try (destruct (server_looping s), (server_stop s); simplify_eq/=);
    intuition congruence.
Qed.

Lemma reachable_acknowledged s : reachable s → acknowledged s.
Proof.
  induction 1 as [w|a s s' _ IH Hf].
  - unfold acknowledged. simpl. intuition congruence.
  - by eapply fire_acknowledged.
Qed.

Lemma fire_registry a s s' :
  fire a s = Some s' →
  (∀ d, a ≠ WatcherTurn d) →
  services_list (store s') = services_list (store s).
Proof.
  intros Hf Ha. destruct a; simpl in Hf; unfold main_step in Hf;
    repeat case_match; simplify_eq/=; try done.
  - by destruct (Ha d).
  - apply frame_serveConn.
Qed.

Lemma fire_handlers a s s' :
  fire a s = Some s' → a ≠ ServerTurn →
  handlers s' `sublist_of` handlers s.
Proof.
  intros Hf Ha. destruct a; simpl in Hf; unfold main_step in Hf;
    repeat case_match; simplify_eq/=; try done.
  apply sublist_delete.
Qed.

(** C7. Once the watcher has sent its [stopped], it handles no further
    event, and the registry list is never written again. Once the server
    has sent its [stopped], it starts no further connection handler; the
    handlers it started before are not waited for, and what they do to a
    service is not excluded. When [daemonMain] has received both
    acknowledgments, both loops have ended. *)
Theorem after_stopped_acknowledgment a s s' :
  reachable s →
  fire a s = Some s' →
  (watcher_looping s = false →
     (∀ d, a ≠ WatcherTurn d) ∧ watcher_looping s' = false ∧
     services_list (store s') = services_list (store s)) ∧
  (server_looping s = false →
     a ≠ ServerTurn ∧ server_looping s' = false ∧
     handlers s' `sublist_of` handlers s) ∧
  (main_at s = AtLock →
     watcher_looping s = false ∧ server_looping s = false).
Proof.
  intros Hr Hf. split_and!.
  - intros Hw.
    assert (∀ d, a ≠ WatcherTurn d) as Ha.
    { intros d ->. simpl in Hf. by rewrite Hw in Hf. }
    split_and!; [done| |by eapply fire_registry].
    destruct a; simpl in Hf; unfold main_step in Hf;
      repeat case_match; simplify_eq/=; try done.
  - intros Hs.
    assert (a ≠ ServerTurn) as Ha.
    { intros ->. simpl in Hf. by rewrite Hs in Hf. }
    split_and!; [done| |by eapply fire_handlers].
    destruct a; simpl in Hf; unfold main_step in Hf;
      repeat case_match; simplify_eq/=; try done.
  - intros Hm. apply reachable_acknowledged in Hr as (_ & _ & MW & MS).
    split; [apply MW; by right|by apply MS].
Qed.

End quit.

(** ** The properties on the scenarios *)

Example created_in_order_C_A_B :
  let w := (@watch healthy three_created initial).2 in
  (λ p, File (Config (heap w !!! p))) <$> starts (trace w) = ["C"; "A"; "B"] ∧
  (λ p, File (Config (heap w !!! p))) <$> services_list w = ["C"; "A"; "B"] ∧
  (λ p, File (Config (heap w !!! p))) <$>
    dispatched (trace (@daemonMain_shutdown healthy [] w).2) = ["B"; "A"; "C"].
Proof. vm_compute. done. Qed.

(** C1. Started from the configurations b (priority 2) and a (priority 1),
    in this order, [daemonMain] calls [Start] on b first and on a second,
    so not by ascending priority; the registry is sorted only afterwards. *)
Theorem boot_starts_before_sorting :
  let w := @booted healthy [cfg "b" 2; cfg "a" 1] in
  (λ p, File (Config (heap w !!! p))) <$> starts (trace w) = ["b"; "a"] ∧
  priority (heap w) <$> starts (trace w) = [2; 1] ∧
  ¬ ascending (priority (heap w)) (starts (trace w)) ∧
  (λ p, File (Config (heap w !!! p))) <$> services_list w = ["a"; "b"].
Proof.
  vm_compute. split_and!; [done..| |done].
  intros Hs. apply StronglySorted_inv in Hs as [_ Hs].
  apply Forall_cons in Hs as [Hs _]. by apply Hs.
Qed.

(** C2, counterexample. The files of B (priority 2), A and C (both
    priority 1) appear in this order, and each service is started as it is
    created. At shutdown the stop tasks are dispatched for B, C, A: the
    priorities 2, 1, 1 are not strictly descending, and the order is not the
    start order B, A, C reversed. *)
Lemma shutdown_dispatch_not_strictly_descending :
  let created := [Deliver (FromEvent disk (create "B"));
                  Deliver (FromEvent disk (create "A"));
                  Deliver (FromEvent disk (create "C"))] in
  let w := @run healthy created (@booted healthy []) in
  let w' := (@daemonMain_shutdown healthy [0; 1; 2]%nat w).2 in
  let evs := drop (length (trace w)) (trace w') in
  (λ p, File (Config (heap w !!! p))) <$> starts (trace w) = ["B"; "A"; "C"] ∧
  (λ p, File (Config (heap w !!! p))) <$> dispatched evs = ["B"; "C"; "A"] ∧
  priority (heap w) <$> dispatched evs = [2; 1; 1] ∧
  dispatched evs ≠ reverse (starts (trace w)) ∧
  ¬ StronglySorted (λ p q, priority (heap w) p > priority (heap w) q)
      (dispatched evs).
Proof.
  vm_compute. split_and!; [done..|].
  intros Hs. apply StronglySorted_inv in Hs as [Hs _].
  apply StronglySorted_inv in Hs as [_ Hs].
  apply Forall_cons in Hs as [Hs _]. discriminate Hs.
Qed.

Lemma shutdown_stops_in_reverse_order_witness :
  let w := @run healthy (Deliver <$> three_created) (@booted healthy []) in
  [1; 2; 0]%nat ⊆+ services_list w ∧
  ∃ evs, added w (@daemonMain_shutdown healthy [1; 2; 0]%nat w).2 evs ∧
    dispatched evs = reverse (services_list w) ∧
    StronglySorted (λ p q, priority (heap w) q ≤ priority (heap w) p)
      (dispatched evs) ∧
    stops evs = [1; 2; 0]%nat ∧
    ((@daemonMain_shutdown healthy [1; 2; 0]%nat w).1 = true ↔
     [1; 2; 0]%nat ≡ₚ services_list w).
Proof.
  assert ([1; 2; 0]%nat ⊆+
          services_list (@run healthy (Deliver <$> three_created)
                           (@booted healthy []))) as Hsub.
  { vm_compute. apply Permutation_submseteq.
    apply perm_trans with [1; 0; 2]%nat; [apply perm_skip, perm_swap|].
    apply perm_swap. }
  split; [exact Hsub|].
  exact (@shutdown_stops_in_reverse_order healthy
           (machine_ConfigImmutable _ _ _) [] (Deliver <$> three_created)
           [1; 2; 0]%nat Hsub).
Defined.

(** C3, counterexample. Services a (priority 1) and b (priority 2) are
    registered at startup, a first. The file of a is then modified twice,
    to priority 3 and to priority 2. Both services now have priority 2 and
    b stands before a in the registry, against the order of insertion. *)
Lemma modify_breaks_insertion_order :
  let steps := [Deliver (FromEvent (λ _, cfg "a" 3) (modify "a"));
                Deliver (FromEvent (λ _, cfg "a" 2) (modify "a"))] in
  let w := @run healthy steps (@booted healthy [cfg "a" 1; cfg "b" 2]) in
  (λ p, File (Config (heap w !!! p))) <$> services_list w = ["b"; "a"] ∧
  services_list w = [1; 0]%nat ∧
  priority (heap w) 1%nat = priority (heap w) 0%nat ∧
  ¬ in_insertion_order w.
Proof.
  vm_compute. split_and!; [done..|].
  intros Hs. apply StronglySorted_inv in Hs as [_ Hs].
  apply Forall_cons in Hs as [[Hs|[_ Hs]] _]; [discriminate Hs|].
  apply Nat.lt_irrefl with 0%nat. lia.
Qed.

Lemma registry_sorted_at_every_unlock_witness :
  let steps := (Deliver <$> three_created) ++
               [Serve (request 7 ["restart"; "A"]);
                Deliver (FromEvent disk (remove "C"))] in
  let w := @run healthy steps (@booted healthy [cfg "z" 5; cfg "y" 1]) in
  @keeps_priorities healthy steps (@booted healthy [cfg "z" 5; cfg "y" 1]) ∧
  sorted w ∧ (∀ s, ties_kept w (@do_step healthy s w)) ∧
  in_insertion_order w.
Proof.
  assert (@keeps_priorities healthy
            ((Deliver <$> three_created) ++
             [Serve (request 7 ["restart"; "A"]);
              Deliver (FromEvent disk (remove "C"))])
            (@booted healthy [cfg "z" 5; cfg "y" 1])) as Hkeep.
  { apply (bool_decide_unpack _). by vm_compute. }
  split; [exact Hkeep|].
  destruct (@registry_sorted_at_every_unlock healthy
              (machine_ConfigImmutable _ _ _) [cfg "z" 5; cfg "y" 1]
              ((Deliver <$> three_created) ++
               [Serve (request 7 ["restart"; "A"]);
                Deliver (FromEvent disk (remove "C"))])) as (Hs & Ht & Ho).
  split; [exact Hs|]. split; [exact Ht|exact (Ho Hkeep)].
Defined.

Lemma restart_start_only_after_stop_witness :
  let c := request 7 ["Restart"; "A"] in
  wf running ∧
  ∃ evs, added running (@serveConn stubborn c running).2 evs ∧
    (∀ i p r, evs !! i = Some (CallStart p r) →
       ∃ j, (j < i)%nat ∧ evs !! j = Some (CallStop p None)) ∧
    (∀ j p e, evs !! j = Some (CallStop p (Some e)) →
       Forall (λ ev, is_Start ev = false) evs ∧
       (∃ k r, (j < k)%nat ∧
          evs !! k = Some (Response 7 respErr
            ("error stopping " +:+ Name (heap running !!! p) +:+ ": " +:+ e
             +:+ nl) r)) ∧
       heap (@serveConn stubborn c running).2 !!! p =
       (@Stop stubborn (S (clock running)) (heap running !!! p)).1).
Proof.
  assert (wf running) as Hwf.
  { unfold wf. vm_compute. repeat constructor. }
  split; [exact Hwf|].
  exact (@restart_start_only_after_stop stubborn
           (request 7 ["Restart"; "A"]) running "Restart" ["A"]
           eq_refl eq_refl Hwf).
Defined.

Lemma modify_equal_config_is_noop_witness :
  @on_event healthy disk (modify "A") running = ((), running).
Proof.
  exact (@modify_equal_config_is_noop healthy disk (modify "A") running
           1%nat eq_refl eq_refl eq_refl eq_refl eq_refl eq_refl).
Defined.

(** C6, counterexample. The client sends a word that is no command and
    goes away: the write of the error message fails and [serveConn]
    returns without having written an end marker. *)
Lemma unknown_command_unwritten_has_no_End :
  let c := request 7 ["frob"] in
  let w' := (@serveConn disconnected c running).2 in
  decodeArgs c = inr ["frob"] ∧
  ¬ @subscribes disconnected c running ∧
  (@serveConn disconnected c running).1 = Return (Some "broken pipe") ∧
  length (List.filter is_End (drop (length (trace running)) (trace w')))
  = 0%nat.
Proof.
  split_and!; [done| |by vm_compute..].
  intros (a & arg & st & Ha & _). discriminate Ha.
Qed.

Lemma running_declared_states : declared_states running.
Proof. apply declared_states_check. by vm_compute. Qed.

Lemma serveConn_end_marker_witness :
  let c := request 7 ["stop"; "B"] in
  declared_states running ∧
  ∃ evs, added running (@serveConn healthy c running).2 evs ∧
    (@subscribes healthy c running → no_End evs) ∧
    (∀ e, @unanswerable healthy c running e →
       no_End evs ∧ (@serveConn healthy c running).1 = Return (Some e)) ∧
    (¬ @subscribes healthy c running →
     (∀ e, ¬ @unanswerable healthy c running e) →
       ∃ pre res,
         evs = pre ++ [Response 7 respEnd "" res] ∧ no_End pre ∧
         (@serveConn healthy c running).1 = Return res).
Proof.
  split; [exact running_declared_states|].
  exact (@serveConn_end_marker healthy (request 7 ["stop"; "B"]) running
           ["stop"; "B"] eq_refl running_declared_states).
Defined.

Lemma list_renders_every_service_witness :
  let c := request 7 ["list"] in
  @serveConn healthy c listed =
  (Return None,
   {| heap := heap listed; services_list := services_list listed;
      trace :=
        [Response 7 respOk
           (table ((λ p, heap listed !!! p) <$> services_list listed)
              ["RUNNING since " +:+ pretty 5 +:+ " - " +:+ pretty 2
               +:+ " restarts";
               "STOPPED"; "FAILED - " +:+ "boom"] +:+ nl) None;
         Response 7 respEnd "" None] |}).
Proof.
  destruct (@list_renders_every_service healthy (request 7 ["list"]) listed
              "list" [] eq_refl eq_refl) as (_ & _ & Hok & _).
  apply (Hok ["RUNNING since " +:+ pretty 5 +:+ " - " +:+ pretty 2
              +:+ " restarts"; "STOPPED"; "FAILED - " +:+ "boom"]).
  simpl. repeat constructor.
Defined.

Lemma restart_not_running_witness :
  let c := request 8 ["restart"; "A"] in
  @serveConn healthy c A_stopped =
  (Return None,
   {| heap := heap A_stopped; services_list := services_list A_stopped;
      trace := trace A_stopped ++ [Response 8 respEnd "" None] |}).
Proof.
  refine (@restart_not_running healthy (request 8 ["restart"; "A"]) A_stopped
            "restart" "A" 1%nat eq_refl eq_refl eq_refl _).
  vm_compute. discriminate.
Defined.

Lemma log_monitor_last_byte_witness :
  let c := request 9 ["log"; "A"] in
  @log_monitor healthy c "out" [] running = (None, running) ∧
  (@log_monitor healthy c "out" [Byte.x68; Byte.x69] running).1 = Some ().
Proof.
  destruct (@log_monitor_last_byte healthy (request 9 ["log"; "A"]) "out" []
              running) as (_ & Hnil & _).
  destruct (@log_monitor_last_byte healthy (request 9 ["log"; "A"]) "out"
              [Byte.x68; Byte.x69] running) as (_ & _ & Hcons).
  split; [exact (Hnil eq_refl)|].
  by rewrite (Hcons [Byte.x68] Byte.x69 eq_refl).
Defined.

Example log_of_empty_line_panics :
  let c := {| fd := 9; decodeArgs := inr ["log"; "A"];
              delivered := [("out", [Byte.x68; Byte.x69]); ("out", [])] |} in
  (@serveConn healthy c running).1 = Panic "index out of range".
Proof. by vm_compute. Qed.

(** C7, counterexample. A connection asking to stop service A is accepted
    and handed to a handler goroutine; then the signal arrives, both loops
    acknowledge and [daemonMain] receives both acknowledgments. The handler
    runs only now and stops A: a control command has changed the state of
    a service after the server's [stopped] was sent and received. *)
Lemma handler_runs_after_stopped :
  let schedule := [Accept (request 7 ["stop"; "A"]); ServerTurn; Main; Main;
                   Main; WatcherQuit; ServerQuit; Main; Main] in
  match @exec healthy (schedule ++ [Handle 0]) (started_system running),
        @exec healthy schedule (started_system running) with
  | Some s', Some s =>
    main_at s = AtLock ∧
    watcher_looping s = false ∧ server_looping s = false ∧
    @fire healthy (Handle 0) s = Some s' ∧
    State (heap (store s) !!! 1%nat) = StateStarted ∧
    State (heap (store s') !!! 1%nat) = StateStopped
  | _, _ => False
  end.
Proof. vm_compute. split_and!; reflexivity. Qed.

Lemma after_stopped_acknowledgment_witness :
  let schedule := [Accept (request 7 ["stop"; "A"]); ServerTurn; Main; Main;
                   Main; WatcherQuit; ServerQuit; Main; Main] in
  ∃ s s',
    @exec healthy schedule (started_system running) = Some s ∧
    @fire healthy (Handle 0) s = Some s' ∧
    @reachable healthy s ∧
    (watcher_looping s = false →
       (∀ d, Handle 0 ≠ WatcherTurn d) ∧ watcher_looping s' = false ∧
       services_list (store s') = services_list (store s)) ∧
    (server_looping s = false →
       Handle 0 ≠ ServerTurn ∧ server_looping s' = false ∧
       handlers s' `sublist_of` handlers s) ∧
    (main_at s = AtLock →
       watcher_looping s = false ∧ server_looping s = false).
Proof.
  intros schedule.
  destruct (@exec healthy schedule (started_system running)) as [s|] eqn:Hs;
    [|by vm_compute in Hs].
  destruct (@fire healthy (Handle 0) s) as [s'|] eqn:Hf.
  2:{ exfalso. revert Hf. vm_compute in Hs. simplify_eq. by vm_compute. }
  assert (@reachable healthy s) as Hr.
  { eapply (@exec_reachable healthy); [|exact Hs]. apply reachable_start. }
  exists s, s'. split; [reflexivity|]. split; [exact Hf|]. split; [exact Hr|].
  exact (@after_stopped_acknowledgment healthy
           (machine_ConfigImmutable _ _ _) (Handle 0) s s' Hr Hf).
Defined.

(** * Further properties of the code *)

(** ** The sort and the watcher *)

Lemma since_added w w' evs : added w w' evs → since w w' = evs.
Proof. unfold added, since. intros ->. by rewrite drop_app_length. Qed.

(** X1. [servicesByPriority(services.list).Sort()] changes no service
    object and is one sort: the registry it leaves is a permutation of the
    registry it found, ascending by priority, with the services of each
    priority in the order they had. A sorted registry is left as it is, and
    sorting a second time changes nothing. *)
Theorem Sort_orders_the_registry w :
  let w' := (Sort_services w).2 in
  heap w' = heap w ∧
  since w w' = [CallSort] ∧
  services_list w' ≡ₚ services_list w ∧
  sorted w' ∧
  (∀ v, filter (λ p, priority (heap w) p = v) (services_list w') =
        filter (λ p, priority (heap w) p = v) (services_list w)) ∧
  (sorted w → services_list w' = services_list w) ∧
  services_list (Sort_services w').2 = services_list w'.
Proof.
  simpl. split_and!.
  - done.
  - unfold since. simpl. by rewrite drop_app_length.
  - apply Stable_perm.
  - apply Stable_ascending.
  - intros v. apply Stable_stable.
  - apply Stable_id.
  - apply Stable_id, Stable_ascending.
Qed.

Section watcher_more.
Context `{Collaborators}.

Lemma on_delete_found name w ii todo j p :
  (ii + todo = length (services_list w))%nat →
  list_find (λ q, File (Config (heap w !!! q)) = name)
    (drop ii (services_list w)) = Some (j, p) →
  let w' := (on_delete name ii todo w).2 in
  services_list w' = delete (ii + j)%nat (services_list w) ∧
  length (heap w') = length (heap w) ∧
  (∀ q, q ≠ p → heap w' !!! q = heap w !!! q) ∧
  (State (heap w !!! p) ≠ StateStarted → heap w' = heap w) ∧
  ∃ r, since w w' =
       Debugf ("removed service " +:+ Name (heap w !!! p)) ::
       (if decide (State (heap w !!! p) = StateStarted)
        then [CallStop p r] else []).
Proof.
  revert ii j. induction todo as [|todo IH]; intros ii j Hlen Hfind.
  { rewrite drop_ge in Hfind by lia. done. }
  destruct (lookup_lt_is_Some_2 (services_list w) ii) as [x Hx]; [lia|].
  rewrite (drop_S _ _ _ Hx) in Hfind. simpl in Hfind.
  simpl. st_simpl. rewrite (list_lookup_total_correct _ _ _ Hx).
  destruct (decide (File (Config (heap w !!! x)) = name)) as [Hf|Hf].
  - simplify_eq. rewrite Nat.add_0_r, delete_take_drop.
    destruct (decide (State (heap w !!! p) = StateStarted)) as [Hs|Hs]; simpl.
    + unfold call_Stop. simpl. destruct (Stop _ _) as [s1 r1]. simpl.
      split_and!; [done|by rewrite length_insert| |done|].
      * intros q Hq. by rewrite list_lookup_total_insert_ne.
      * exists r1. unfold since. simpl.
        by rewrite <- app_assoc, drop_app_length.
    + split_and!; [done..|]. exists None. unfold since. simpl.
      by rewrite drop_app_length.
  - destruct (list_find _ (drop (S ii) _)) as [[j' p']|] eqn:E;
      simplify_eq/=.
    replace (ii + S j')%nat with (S ii + j')%nat by lia.
    apply IH; [lia|done].
Qed.

Lemma on_delete_not_found name w ii todo :
  (ii + todo = length (services_list w))%nat →
  list_find (λ q, File (Config (heap w !!! q)) = name)
    (drop ii (services_list w)) = None →
  on_delete name ii todo w = ((), w).
Proof.
  revert ii. induction todo as [|todo IH]; intros ii Hlen Hfind; [done|].
  destruct (lookup_lt_is_Some_2 (services_list w) ii) as [x Hx]; [lia|].
  rewrite (drop_S _ _ _ Hx) in Hfind. simpl in Hfind.
  simpl. st_simpl. rewrite (list_lookup_total_correct _ _ _ Hx).
  destruct (decide (File (Config (heap w !!! x)) = name)) as [Hf|Hf];
    [done|].
  apply IH; [lia|]. by destruct (list_find _ (drop (S ii) _)).
Qed.

Lemma on_modify_not_found ParseConfig name vs w :
  list_find (λ q, File (Config (heap w !!! q)) = name) vs = None →
  on_modify ParseConfig name vs w = ((), w).
Proof.
  induction vs as [|v vs IH]; intros Hfind; [done|].
  simpl in Hfind. simpl. st_simpl.
  destruct (decide (File (Config (heap w !!! v)) = name)) as [Hf|Hf];
    [done|].
  apply IH. by destruct (list_find _ vs).
Qed.

(** X5. A delete, rename or modify event that names a file no registered
    service was configured from changes nothing: no service is touched, the
    registry is as before and nothing is logged. *)
Theorem event_for_unregistered_file_is_noop ParseConfig ev w :
  IsCreate ev = false →
  IsDelete ev || IsRename ev || IsModify ev = true →
  of_file w (filepath_Base (ev_Name ev)) = None →
  on_event ParseConfig ev w = ((), w).
Proof.
  intros Hc Hkind Hnone. unfold on_event. rewrite Hc.
  destruct (shouldIgnoreFile _); [done|].
  unfold of_file in Hnone.
  destruct (list_find _ _) as [[i p]|] eqn:Hfind; [done|].
  destruct (IsDelete ev || IsRename ev) eqn:Hd.
  { st_simpl. apply on_delete_not_found; [lia|by rewrite drop_0]. }
  simpl in Hkind. rewrite Hkind. st_simpl. by apply on_modify_not_found.
Qed.

(** X3. A delete or rename event removes from the registry the first
    entry configured from the file, and only that entry. [Stop] is called
    on the service exactly when it is [Started], after the removal has been
    logged and whatever [Stop] returns; no other service object changes, and
    [Start] is never called. *)
Theorem delete_removes_first_entry_of_file ParseConfig ev w i p :
  let name := filepath_Base (ev_Name ev) in
  shouldIgnoreFile name = false →
  IsCreate ev = false →
  IsDelete ev || IsRename ev = true →
  list_find (λ q, File (Config (heap w !!! q)) = name) (services_list w)
  = Some (i, p) →
  let w' := (on_event ParseConfig ev w).2 in
  services_list w' = delete i (services_list w) ∧
  length (heap w') = length (heap w) ∧
  (∀ q, q ≠ p → heap w' !!! q = heap w !!! q) ∧
  (State (heap w !!! p) ≠ StateStarted → heap w' = heap w) ∧
  ∃ r, since w w' =
       Debugf ("removed service " +:+ Name (heap w !!! p)) ::
       (if decide (State (heap w !!! p) = StateStarted)
        then [CallStop p r] else []).
Proof.
  intros name Hign Hc Hd Hfind. unfold on_event. fold name.
  rewrite Hign, Hc, Hd. st_simpl.
  apply (on_delete_found name w 0 (length (services_list w)) i p);
    [lia|by rewrite drop_0].
Qed.

End watcher_more.

Section watcher_config.
Context `{ConfigImmutable}.

Lemma on_create_spec ParseConfig name w :
  let w' := (on_create ParseConfig name w).2 in
  let p := length (heap w) in
  services_list w' = Stable (priority (heap w')) (services_list w ++ [p]) ∧
  length (heap w') = S (length (heap w)) ∧
  Config (heap w' !!! p) = ParseConfig name ∧
  (∀ q, (q < p)%nat → heap w' !!! q = heap w !!! q) ∧
  ∃ r, since w w' =
       [Debugf ("added service " +:+ ServiceName (ParseConfig name));
        CallSort; CallStart p r].
Proof.
  destruct (on_create_registry ParseConfig name w) as (N & P & L).
  split_and!; [done..| | |].
  all: unfold on_create; st_simpl; unfold call_Start; simpl.
  all: match goal with |- context [Start ?t ?s] =>
         pose proof (Start_Config t s) as HC;
         destruct (Start t s) as [s' r] end; simpl in *.
  - rewrite list_lookup_total_insert_eq by (rewrite length_app; simpl; lia).
    rewrite HC, lookup_total_app_r by lia. by rewrite Nat.sub_diag.
  - intros q Hq. rewrite list_lookup_total_insert_ne by lia.
    by rewrite lookup_total_app_l.
  - exists r. unfold since. simpl.
    by rewrite <- !app_assoc, drop_app_length.
Qed.

(** X2. A create event for a file that is not ignored always registers a
    new service, whether or not the file is registered already: a service
    is allocated with the parsed configuration, the registry gains exactly
    this entry and is sorted, the older services are untouched, and the
    effects are, in this order, the log line, the sort and one call of
    [Start] on the new service. *)
Theorem create_registers_and_starts ParseConfig ev w :
  let name := filepath_Base (ev_Name ev) in
  shouldIgnoreFile name = false →
  IsCreate ev = true →
  let w' := (on_event ParseConfig ev w).2 in
  let p := length (heap w) in
  services_list w' ≡ₚ services_list w ++ [p] ∧
  sorted w' ∧
  length (heap w') = S (length (heap w)) ∧
  Config (heap w' !!! p) = ParseConfig name ∧
  (∀ q, (q < p)%nat → heap w' !!! q = heap w !!! q) ∧
  ∃ r, since w w' =
       [Debugf ("added service " +:+ ServiceName (ParseConfig name));
        CallSort; CallStart p r].
Proof.
  intros name Hign Hc. unfold on_event. fold name. rewrite Hign, Hc.
  destruct (on_create_spec ParseConfig name w) as (L & N & C & O & E).
  split_and!; [by rewrite L, Stable_perm|
               unfold sorted; rewrite L; apply Stable_ascending|done..].
Qed.

Lemma settle_split {A} (key : A → Z) (x : A) (l : list A) :
  ∃ l1 l2, l = l1 ++ l2 ∧ settle key x l = l1 ++ x :: l2.
Proof.
  induction l as [|y l (l1 & l2 & -> & E)]; simpl.
  { by exists [], []. }
  destruct (Less key x y).
  - by exists [], (y :: l1 ++ l2).
  - exists (y :: l1), l2. by rewrite E.
Qed.

Lemma list_find_middle {A} (P : A → Prop) `{!∀ x, Decision (P x)}
  (l1 l2 : list A) (x : A) :
  Forall (λ y, ¬ P y) l1 → P x →
  list_find P (l1 ++ x :: l2) = Some (length l1, x).
Proof.
  intros Hn Hx. apply list_find_Some. split_and!.
  - by rewrite list_lookup_middle.
  - done.
  - intros j y Hj Hlt. rewrite lookup_app_l in Hj by done.
    rewrite Forall_forall in Hn. eapply Hn. by eapply list_elem_of_lookup_2.
Qed.

(** X6. Creating a file and then deleting it gives the registry back: when
    the registry is sorted, its entries are allocated, no entry comes from
    the file and the parsed configuration carries the file's name, the
    registry after the two events is the registry before them, the older
    services are untouched, and the delete calls [Stop] on the new service
    exactly when the create left it [Started]. *)
Theorem create_then_delete_restores_registry ParseConfig ParseConfig' c d w :
  let name := filepath_Base (ev_Name c) in
  shouldIgnoreFile name = false →
  IsCreate c = true →
  filepath_Base (ev_Name d) = name →
  IsCreate d = false →
  IsDelete d || IsRename d = true →
  File (ParseConfig name) = name →
  of_file w name = None →
  sorted w → wf w →
  let w1 := (on_event ParseConfig c w).2 in
  let w2 := (on_event ParseConfig' d w1).2 in
  let p := length (heap w) in
  services_list w2 = services_list w ∧
  (∀ q, (q < p)%nat → heap w2 !!! q = heap w !!! q) ∧
  stops (since w1 w2) =
    (if decide (State (heap w1 !!! p) = StateStarted) then [p] else []).
Proof.
  intros name Hign Hc Hname Hdc Hd Hfile Hnone Hsorted Hwf w1 w2 p.
  assert (w1 = (on_create ParseConfig name w).2) as Hw1.
  { unfold w1, on_event. fold name. by rewrite Hign, Hc. }
  assert (w2 = (on_delete name 0 (length (services_list w1)) w1).2) as Hw2.
  { unfold w2, on_event. rewrite Hname, Hign, Hdc, Hd. by st_simpl. }
  clearbody w2 w1. subst p.
  destruct (on_create_spec ParseConfig name w) as (L & N & C & O & _).
  rewrite <- Hw1 in L, N, C, O.
  assert (∀ q, q ∈ services_list w → (q < length (heap w))%nat) as Hlt.
  { intros q Hq. by apply wf_allocated. }
  rewrite Stable_snoc in L.
  rewrite (Stable_id _ (services_list w)) in L.
  2:{ eapply ascending_ext; [|exact Hsorted]. intros q Hq.
      unfold priority. by rewrite O by by apply Hlt. }
  destruct (settle_split (priority (heap w1)) (length (heap w))
              (services_list w))
    as (l1 & l2 & Hl & Hs).
  rewrite Hs in L.
  assert (list_find (λ q, File (Config (heap w1 !!! q)) = name)
            (services_list w1) = Some (length l1, length (heap w)))
    as Hfind.
  { rewrite L. apply list_find_middle;
      [|by etrans; [exact (f_equal File C)|]].
    apply Forall_forall. intros q Hq.
    assert (q ∈ services_list w) as Hq'.
    { rewrite Hl. apply elem_of_app. by left. }
    rewrite O by by apply Hlt. unfold of_file in Hnone.
    apply fmap_None in Hnone.
    eapply list_find_None in Hnone. rewrite Forall_forall in Hnone.
    by apply Hnone. }
  destruct (on_delete_found name w1 0 (length (services_list w1))
              (length l1) (length (heap w))) as (L' & N' & O' & _ & r & E);
    [lia|by rewrite drop_0|].
  rewrite <- Hw2 in L', N', O', E. simpl in L'. split_and!.
  - rewrite L', L, Hl, delete_take_drop, take_app_length.
    f_equal. rewrite drop_app_ge by lia.
    replace (S (length l1) - length l1)%nat with 1%nat by lia. done.
  - intros q Hq. rewrite O' by lia. by apply O.
  - rewrite E. simpl. by destruct (decide _).
Qed.

Lemma on_modify_found ParseConfig name vs w i v :
  list_find (λ q, File (Config (heap w !!! q)) = name) vs = Some (i, v) →
  Config (heap w !!! v) ≠ ParseConfig name →
  (v < length (heap w))%nat →
  let w' := (on_modify ParseConfig name vs w).2 in
  let running := bool_decide (State (heap w !!! v) = StateStarted) in
  let r := (Stop (S (clock w)) (heap w !!! v)).2 in
  Config (heap w' !!! v) = ParseConfig name ∧
  services_list w' = Stable (priority (heap w')) (services_list w) ∧
  length (heap w') = length (heap w) ∧
  (∀ q, q ≠ v → heap w' !!! q = heap w !!! q) ∧
  ∃ r', since w w' =
        Debugf ("changed service " +:+ Name (heap w !!! v) +:+
                "'s configuration") ::
        (if running then [CallStop v r] else []) ++
        CallSort ::
        (if running && bool_decide (r = None) then [CallStart v r'] else []).
Proof.
  revert i. induction vs as [|u vs IH]; intros i Hfind Hne Hv; [done|].
  simpl in Hfind. simpl. st_simpl.
  match goal with |- context [@decide (File ?c = name) ?d] =>
    destruct (@decide (File c = name) d) as [Hf|Hf] end.
  2:{ rewrite decide_False in Hfind by done.
      apply fmap_Some in Hfind as ([j u'] & E & Heq). simplify_eq/=.
      exact (IH j E Hne Hv). }
  rewrite decide_True in Hfind by done.
  assert (u = v) as -> by congruence. clear IH Hfind i.
  rewrite decide_False by done. cbv zeta.
  match goal with |- context [@decide (State ?c = StateStarted) ?d] =>
    destruct (@decide (State c = StateStarted) d) as [Hs|Hs] end;
    [rewrite (bool_decide_eq_true_2 _ Hs)
    |rewrite (bool_decide_eq_false_2 _ Hs)]; simpl;
    unfold call_Stop, call_Start, clock; simpl;
    rewrite ?length_app; simpl;
    replace (length (trace w) + 1)%nat with (S (length (trace w))) by lia.
  - pose proof (Stop_Config (S (length (trace w))) (heap w !!! v)) as HC.
    destruct (Stop _ _) as [s1 r1]. simpl in *.
    rewrite list_lookup_total_insert_eq by done.
    rewrite list_insert_insert_eq.
    case_bool_decide as Hr; simpl.
    + match goal with |- context [Start ?t ?s] =>
        pose proof (Start_Config t s) as HC';
        destruct (Start t s) as [s2 r2] end. simpl in *.
      rewrite list_lookup_total_insert_eq in HC' by (by rewrite ?length_insert).
      rewrite list_lookup_total_insert_eq by (by rewrite ?length_insert).
      rewrite list_insert_insert_eq.
      split_and!; [done| |by rewrite ?length_insert| |].
      * apply Stable_ext. intros q _. unfold priority.
        destruct (decide (q = v)) as [->|Hq].
        -- rewrite !list_lookup_total_insert_eq by done. by rewrite HC'.
        -- by rewrite !list_lookup_total_insert_ne.
      * intros q Hq. by rewrite list_lookup_total_insert_ne.
      * exists r2. unfold since. simpl.
        by rewrite <- !app_assoc, drop_app_length.
    + rewrite list_lookup_total_insert_eq by done.
      split_and!; [done..|by rewrite ?length_insert| |].
      * intros q Hq. by rewrite list_lookup_total_insert_ne.
      * exists None. unfold since. simpl.
        by rewrite <- !app_assoc, drop_app_length.
  - rewrite list_lookup_total_insert_eq by done.
    split_and!; [done..|by rewrite ?length_insert| |].
    + intros q Hq. by rewrite list_lookup_total_insert_ne.
    + exists None. unfold since. simpl.
      by rewrite <- !app_assoc, drop_app_length.
Qed.

(** X4. A modify event whose parsed configuration differs from that of
    the first registry entry of the file replaces the configuration of that
    service and sorts the registry. If the service was [Started] it is
    stopped first, and it is started again, after the sort, only when
    [Stop] returned no error; a service that was not [Started] is neither
    stopped nor started. No other service object changes. *)
Theorem modify_reconfigures_first_entry_of_file ParseConfig ev w i v :
  let name := filepath_Base (ev_Name ev) in
  shouldIgnoreFile name = false →
  IsCreate ev = false → IsDelete ev = false → IsRename ev = false →
  IsModify ev = true →
  list_find (λ q, File (Config (heap w !!! q)) = name) (services_list w)
  = Some (i, v) →
  Config (heap w !!! v) ≠ ParseConfig name →
  (v < length (heap w))%nat →
  let w' := (on_event ParseConfig ev w).2 in
  let running := bool_decide (State (heap w !!! v) = StateStarted) in
  let r := (Stop (S (clock w)) (heap w !!! v)).2 in
  Config (heap w' !!! v) = ParseConfig name ∧
  services_list w' ≡ₚ services_list w ∧
  sorted w' ∧
  length (heap w') = length (heap w) ∧
  (∀ q, q ≠ v → heap w' !!! q = heap w !!! q) ∧
  ∃ r', since w w' =
        Debugf ("changed service " +:+ Name (heap w !!! v) +:+
                "'s configuration") ::
        (if running then [CallStop v r] else []) ++
        CallSort ::
        (if running && bool_decide (r = None) then [CallStart v r'] else []).
Proof.
  intros name Hign Hc Hd Hr Hm Hfind Hne Hv. unfold on_event. fold name.
  rewrite Hign, Hc, Hd, Hr, Hm. st_simpl.
  destruct (on_modify_found ParseConfig name (services_list w) w i v
              Hfind Hne Hv) as (C & L & N & O & E).
  split_and!; [done|by rewrite L, Stable_perm|
               unfold sorted; rewrite L; apply Stable_ascending|done..].
Qed.

End watcher_config.

(** ** The control protocol *)

Section leaves_facts.
Context `{Collaborators}.

Lemma leaves_ret {A} q (a : A) : leaves q (mret a).
Proof. by intros w. Qed.

Lemma leaves_bind {A B} q (m : St A) (f : A → St B) :
  leaves q m → (∀ a, leaves q (f a)) → leaves q (m ≫= f).
Proof.
  intros Hm Hf w. st_simpl. specialize (Hm w).
  destruct (m w) as [a w1]. simpl in Hm. rewrite <- Hm. apply Hf.
Qed.

Lemma leaves_fmap {A B} q (m : St A) (f : A → B) :
  leaves q m → leaves q (f <$> m).
Proof.
  intros Hm w. st_simpl. specialize (Hm w). by destruct (m w) as [a w1].
Qed.

Lemma leaves_deref q p : leaves q (deref p).
Proof. by intros w. Qed.

Lemma leaves_get_list q : leaves q get_list.
Proof. by intros w. Qed.

Lemma leaves_encodeResponse q c t msg : leaves q (encodeResponse c t msg).
Proof. by intros w. Qed.

Lemma leaves_call_Start q p : q ≠ p → leaves q (call_Start p).
Proof.
  intros Hq w. unfold call_Start. destruct (Start _ _) as [s r]. simpl.
  by rewrite list_lookup_total_insert_ne.
Qed.

Lemma leaves_call_Stop q p : q ≠ p → leaves q (call_Stop p).
Proof.
  intros Hq w. unfold call_Stop. destruct (Stop _ _) as [s r]. simpl.
  by rewrite list_lookup_total_insert_ne.
Qed.

Lemma leaves_set_monitor q p m : q ≠ p → leaves q (set_monitor p m).
Proof.
  intros Hq w. unfold set_monitor. st_simpl.
  by rewrite list_lookup_total_insert_ne.
Qed.

Ltac leaves_step :=
  lazymatch goal with
  | |- leaves _ (mbind ?f ?m) => apply (leaves_bind _ m f); [|intros]
  | |- leaves _ (fmap ?f ?m) => apply (leaves_fmap _ m f)
  | |- leaves _ (mret _) => apply leaves_ret
  | |- leaves _ (deref _) => apply leaves_deref
  | |- leaves _ get_list => apply leaves_get_list
  | |- leaves _ (encodeResponse _ _ _) => apply leaves_encodeResponse
  | |- leaves _ (call_Start _) => apply leaves_call_Start; congruence
  | |- leaves _ (call_Stop _) => apply leaves_call_Stop; congruence
  | |- leaves _ (set_monitor _ _) => apply leaves_set_monitor; congruence
  | |- leaves _ (if decide _ then _ else _) => case_decide
  | |- leaves _ (if ?b then _ else _) => destruct b
  | |- leaves _ (match ?x with _ => _ end) => destruct x
  end.

Ltac leaves_all := repeat leaves_step.

Lemma leaves_startService q c s : q ≠ s → leaves q (startService c s).
Proof. intros Hq. unfold startService. leaves_all. Qed.

Lemma leaves_stopService q c s : q ≠ s → leaves q (stopService c s).
Proof. intros Hq. unfold stopService. leaves_all. Qed.

Lemma leaves_log_monitor q c prefix b : leaves q (log_monitor c prefix b).
Proof. unfold log_monitor. leaves_all. Qed.

Lemma leaves_log_stream q c lines : leaves q (log_stream c lines).
Proof.
  induction lines as [|[prefix b] lines IH]; simpl; leaves_all;
    [apply leaves_log_monitor|exact IH].
Qed.

Lemma leaves_command q c cmd st name :
  st ≠ Some q → leaves q (command c cmd st name).
Proof.
  intros Hq. unfold command. leaves_all;
    try (apply leaves_startService; congruence);
    try (apply leaves_stopService; congruence);
    try apply leaves_log_stream; leaves_all.
  all: by intros w.
Qed.

(** What [resolve] yields: it writes at most one [Err] message, and the
    service it hands to the [switch] is the one the request names. *)
Lemma resolve_spec c args cmd w :
  let '(cmd', st, name, w') := resolve c args cmd w in
  heap w' = heap w ∧ services_list w' = services_list w ∧
  match st with
  | Some p => ∃ a arg, args = [a; arg] ∧ named w arg = Some p ∧ name = arg
                       ∧ cmd' = cmd ∧ w' = w
  | None => True
  end.
Proof.
  unfold resolve. destruct (needs_service cmd); [|done].
  destruct (decide (length args ≠ 2%nat)) as [Hlen|Hlen]; [done|].
  destruct args as [|a [|arg [|??]]]; simpl in Hlen; try lia.
  st_simpl. rewrite find_service_spec. unfold named.
  change ([a; arg] !!! 1%nat) with arg.
  destruct (list_find _ _) as [[i p]|] eqn:Hfind; simpl; [|done].
  split_and!; [done..|]. exists a, arg. by rewrite Hfind.
Qed.

(** X12. Serving a connection changes no service object other than the
    one its request names: a service that is not the first registry entry
    with the name given as the single argument is left as it is, whatever
    the command. *)
Theorem serveConn_changes_only_the_named_service c w q :
  (∀ a arg, decodeArgs c = inr [a; arg] → named w arg ≠ Some q) →
  heap (serveConn c w).2 !!! q = heap w !!! q.
Proof.
  intros Hq. unfold serveConn.
  destruct (decodeArgs c) as [err|[|a args]] eqn:Hargs; [done..|].
  st_unfold.
  pose proof (resolve_spec c (a :: args) (ToLower a) w) as Hres.
  destruct (resolve _ _ _ w) as [[[cmd st] name] w1].
  destruct Hres as (Hh & _ & Hst). rewrite <- Hh.
  assert (st ≠ Some q) as Hne.
  { intros ->. destruct Hst as (a' & arg & E & Hn & _). simplify_eq.
    by eapply Hq. }
  pose proof (leaves_command q c cmd st name Hne w1) as Hc.
  destruct (command _ _ _ _ w1) as [[r|] w2]; simpl in *; [done|].
  unfold encodeResponse. by simpl.
Qed.

End leaves_facts.

Section protocol_more.
Context `{Collaborators}.

Lemma needs_service_not_empty cmd : needs_service cmd = true → cmd ≠ "".
Proof. by intros Hn ->. Qed.

(** X8. A [start], [stop], [restart] or [log] with one argument that names
    no registered service is answered by the [Err] message no service named
    ..., followed by the end marker; nothing else happens, and [serveConn]
    returns what the write of the end marker returned. *)
Theorem unknown_service_is_reported c w a arg :
  decodeArgs c = inr [a; arg] →
  needs_service (ToLower a) = true →
  named w arg = None →
  serveConn c w =
  (Return (written (S (clock w))),
   {| heap := heap w; services_list := services_list w;
      trace := trace w ++
        [Response (fd c) respErr ("no service named " +:+ arg +:+ nl)
           (written (clock w));
         Response (fd c) respEnd "" (written (S (clock w)))] |}).
Proof.
  intros Hargs Hcmd Hst. unfold serveConn. rewrite Hargs.
  unfold resolve. rewrite Hcmd. simpl.
  st_unfold. simpl. rewrite find_service_spec.
  unfold named in Hst. rewrite Hst. simpl.
  unfold command, encodeResponse, clock. simpl.
  rewrite length_app. simpl. rewrite <- app_assoc. simpl.
  by replace (length (trace w) + 1)%nat with (S (length (trace w))) by lia.
Qed.

(** X7. A [start], [stop], [restart] or [log] with no argument or with
    more than one is answered by the [Err] message command ... requires
    exactly one argument, followed by the end marker; the registry is not
    searched and no service is touched. The error of the first write is
    dropped: [serveConn] returns what the write of the end marker
    returned. *)
Theorem wrong_argument_count_is_reported c w a args :
  decodeArgs c = inr (a :: args) →
  needs_service (ToLower a) = true →
  length args ≠ 1%nat →
  serveConn c w =
  (Return (written (S (clock w))),
   {| heap := heap w; services_list := services_list w;
      trace := trace w ++
        [Response (fd c) respErr
           ("command " +:+ ToLower a +:+ " requires exactly one argument"
            +:+ nl) (written (clock w));
         Response (fd c) respEnd "" (written (S (clock w)))] |}).
Proof.
  intros Hargs Hcmd Hlen. unfold serveConn. rewrite Hargs.
  unfold resolve. rewrite Hcmd.
  rewrite decide_True by (simpl; lia).
  st_unfold. simpl.
  unfold command, encodeResponse, clock. simpl.
  rewrite length_app. simpl. rewrite <- app_assoc. simpl.
  by replace (length (trace w) + 1)%nat with (S (length (trace w))) by lia.
Qed.

Lemma named_Name w arg st : named w arg = Some st → Name (heap w !!! st) = arg.
Proof.
  unfold named. intros Hn. apply fmap_Some in Hn as ([i p] & Hf & ->).
  by apply list_find_Some in Hf as (_ & Hp & _).
Qed.

(** X9. [start] on a registered service. If the service is [Started] the
    client is told that it is already running and [Start] is not called.
    Otherwise the client is sent starting ..., [Start] is called once, and
    the client is sent started ... or, when [Start] returned an error, the
    [Err] message with that error. In each case the end marker follows and
    [Stop] is never called. *)
Theorem start_command c w a arg st :
  decodeArgs c = inr [a; arg] →
  ToLower a = "start" →
  named w arg = Some st →
  let t := clock w in
  serveConn c w =
  if decide (State (heap w !!! st) = StateStarted) then
    (Return (written (S t)),
     {| heap := heap w; services_list := services_list w;
        trace := trace w ++
          [Response (fd c) respErr (arg +:+ " is already running" +:+ nl)
             (written t);
           Response (fd c) respEnd "" (written (S t))] |})
  else
    let '(s, r) := Start (S t) (heap w !!! st) in
    (Return (written (S (S (S t)))),
     {| heap := <[st := s]> (heap w); services_list := services_list w;
        trace := trace w ++
          [Response (fd c) respOk ("starting " +:+ arg +:+ nl) (written t);
           CallStart st r;
           match r with
           | Some e =>
             Response (fd c) respErr
               ("error starting " +:+ arg +:+ ": " +:+ e +:+ nl)
               (written (S (S t)))
           | None =>
             Response (fd c) respOk ("started " +:+ arg +:+ nl)
               (written (S (S t)))
           end;
           Response (fd c) respEnd "" (written (S (S (S t))))] |}).
Proof.
  intros Hargs Hcmd Hst t. pose proof (named_Name _ _ _ Hst) as Hname.
  unfold serveConn. rewrite Hargs, Hcmd.
  unfold resolve. simpl.
  st_unfold. simpl. rewrite find_service_spec.
  unfold named in Hst. rewrite Hst. simpl.
  unfold command. simpl. st_unfold. simpl.
  destruct (decide (State (heap w !!! st) = StateStarted)) as [Hs|Hs]; simpl.
  - unfold encodeResponse, clock. simpl.
    rewrite length_app. simpl. rewrite <- app_assoc. simpl.
    by replace (length (trace w) + 1)%nat with (S (length (trace w))) by lia.
  - unfold startService, call_Start, encodeResponse, clock. st_unfold. simpl.
    rewrite Hname. rewrite !length_app. simpl.
    replace (length (trace w) + 1)%nat with (S (length (trace w))) by lia.
    subst t. unfold clock.
    destruct (Start _ _) as [s [e|]]; simpl; rewrite !length_app; simpl;
      rewrite <- !app_assoc; simpl; repeat f_equal; lia.
Qed.

(** X10. [stop] on a registered service. If the service is not [Started]
    the client is told that it is not running and [Stop] is not called.
    Otherwise the client is sent stopping ..., [Stop] is called once, and
    the client is sent stopped ... or, when [Stop] returned an error, the
    [Err] message with that error. In each case the end marker follows and
    [Start] is never called. *)
Theorem stop_command c w a arg st :
  decodeArgs c = inr [a; arg] →
  ToLower a = "stop" →
  named w arg = Some st →
  let t := clock w in
  serveConn c w =
  if decide (State (heap w !!! st) = StateStarted) then
    let '(s, r) := Stop (S t) (heap w !!! st) in
    (Return (written (S (S (S t)))),
     {| heap := <[st := s]> (heap w); services_list := services_list w;
        trace := trace w ++
          [Response (fd c) respOk ("stopping " +:+ arg +:+ nl) (written t);
           CallStop st r;
           match r with
           | Some e =>
             Response (fd c) respErr
               ("error stopping " +:+ arg +:+ ": " +:+ e +:+ nl)
               (written (S (S t)))
           | None =>
             Response (fd c) respOk ("stopped " +:+ arg +:+ nl)
               (written (S (S t)))
           end;
           Response (fd c) respEnd "" (written (S (S (S t))))] |})
  else
    (Return (written (S t)),
     {| heap := heap w; services_list := services_list w;
        trace := trace w ++
          [Response (fd c) respErr (arg +:+ " is not running" +:+ nl)
             (written t);
           Response (fd c) respEnd "" (written (S t))] |}).
Proof.
  intros Hargs Hcmd Hst t. pose proof (named_Name _ _ _ Hst) as Hname.
  unfold serveConn. rewrite Hargs, Hcmd.
  unfold resolve. simpl.
  st_unfold. simpl. rewrite find_service_spec.
  unfold named in Hst. rewrite Hst. simpl.
  unfold command. simpl. st_unfold. simpl.
  destruct (decide (State (heap w !!! st) = StateStarted)) as [Hs|Hs].
  - rewrite decide_False by (by intros ?).
    unfold stopService, call_Stop, encodeResponse, clock. st_unfold. simpl.
    rewrite Hname. rewrite !length_app. simpl.
    replace (length (trace w) + 1)%nat with (S (length (trace w))) by lia.
    subst t. unfold clock.
    destruct (Stop _ _) as [s [e|]]; simpl; rewrite !length_app; simpl;
      rewrite <- !app_assoc; simpl; repeat f_equal; lia.
  - rewrite decide_True by done.
    unfold encodeResponse, clock. simpl.
    rewrite length_app. simpl. rewrite <- app_assoc. simpl.
    by replace (length (trace w) + 1)%nat with (S (length (trace w))) by lia.
Qed.

Lemma log_stream_lines c lines w :
  Forall (λ line : string * list Byte.byte, line.2 ≠ []) lines →
  log_stream c lines w =
  (Some (),
   {| heap := heap w; services_list := services_list w;
      trace := trace w ++
        imap (λ i line, Response (fd c) respOk (framed line)
                          (written (clock w + i)%nat)) lines |}).
Proof.
  intros Hlines. revert w.
  induction Hlines as [|[prefix b] lines Hb _ IH]; intros w; simpl.
  { rewrite app_nil_r. by destruct w. }
  st_unfold. unfold log_monitor, framed. simpl in *.
  destruct (last b) as [x|] eqn:Hlast.
  2:{ apply last_None in Hlast. done. }
  st_unfold. unfold encodeResponse. simpl. rewrite IH. simpl.
  unfold clock. simpl. rewrite length_app, <- app_assoc. simpl.
  rewrite Nat.add_0_r. do 4 f_equal.
  - by destruct (Byte.eqb x Byte.x0a).
  - apply imap_ext. intros i line _. simpl. do 2 f_equal. lia.
Qed.

Lemma with_monitor_restored (s : service) m :
  monitor s = None → with_monitor None (with_monitor m s) = s.
Proof. destruct s. simpl. by intros ->. Qed.

(** X11. A [log] on a running service that has no subscriber, when every
    line handed to the subscriber is non-empty and the client ends the
    stream: each line is written as one [Ok] message, in order, nothing
    else is written, the subscriber is removed again, so that every service
    object is as before the request, and [serveConn] returns [nil]. *)
Theorem log_subscription_leaves_no_trace_on_services c w a arg st :
  decodeArgs c = inr [a; arg] →
  ToLower a = "log" →
  named w arg = Some st →
  State (heap w !!! st) = StateStarted →
  monitor (heap w !!! st) = None →
  Forall (λ line : string * list Byte.byte, line.2 ≠ []) (delivered c) →
  serveConn c w =
  (Return None,
   {| heap := heap w; services_list := services_list w;
      trace := trace w ++
        imap (λ i line, Response (fd c) respOk (framed line)
                          (written (clock w + i)%nat)) (delivered c) |}).
Proof.
  intros Hargs Hcmd Hst Hs Hm Hlines.
  unfold serveConn. rewrite Hargs, Hcmd.
  unfold resolve. simpl.
  st_unfold. simpl. rewrite find_service_spec.
  unfold named in Hst. rewrite Hst. simpl.
  unfold command. simpl. st_unfold. simpl.
  rewrite decide_False by (by intros ?).
  rewrite decide_False by (by intros ?).
  unfold set_monitor. st_unfold. simpl.
  rewrite log_stream_lines by done. simpl.
  destruct (decide (st < length (heap w))%nat) as [Hlt|Hlt].
  2:{ rewrite (list_insert_ge (heap w)) by lia.
      by rewrite (list_insert_ge (heap w)) by lia. }
  rewrite list_lookup_total_insert_eq by done.
  rewrite list_insert_insert_eq, with_monitor_restored by done.
  rewrite list_insert_id; [done|]. by apply list_lookup_lookup_total_lt.
Qed.

End protocol_more.

(** ** The quit handshake and startup failures *)

Section handshake_facts.
Context `{Collaborators}.





(** A goroutine that was never started sends no acknowledgment. *)
Lemma fire_no_watcher a s s' :
  fire a s = Some s' →
  watcher_looping s = false ∧ watcher_stopped s = false ∧
    main_at s ≠ AtRecvServer ∧ main_at s ≠ AtLock →
  watcher_looping s' = false ∧ watcher_stopped s' = false ∧
    main_at s' ≠ AtRecvServer ∧ main_at s' ≠ AtLock.
Proof.
  intros Hf (L & D & M1 & M2).
  destruct s as [w pc wl ws wd sl ss sd cs hs]. simpl in *. subst.
  destruct a; simpl in Hf; unfold main_step in Hf; simpl in Hf;
    repeat case_match; simplify_eq/=; done.
Qed.

Lemma fire_no_server a s s' :
  fire a s = Some s' →
  server_looping s = false ∧ server_stopped s = false ∧ main_at s ≠ AtLock →
  server_looping s' = false ∧ server_stopped s' = false ∧ main_at s' ≠ AtLock.
Proof.
  intros Hf (L & D & M).
  destruct s as [w pc wl ws wd sl ss sd cs hs]. simpl in *. subst.
  destruct a; simpl in Hf; unfold main_step in Hf; simpl in Hf;
    repeat case_match; simplify_eq/=; done.
Qed.

(** X17. When [fsnotify.NewWatcher] or [net.Listen] fails, [daemonMain]
    logs the error and goes on, but the goroutine that would acknowledge the
    quit signal was never started: whatever happens afterwards,
    [daemonMain] never gets past the receipt of the acknowledgments, and so
    never reaches the code that stops the services. *)
Theorem shutdown_hangs_without_watcher_or_server
  current parsed configDir ow os s acts s' :
  daemonMain_startup current parsed configDir ow os = inr s →
  (startWatching ow).1 = false ∨ (startServer os).1 = false →
  exec acts s = Some s' →
  main_at s' ≠ AtLock.
Proof.
  intros Hstart Hfail Hexec.
  unfold daemonMain_startup in Hstart.
  destruct current as [?|uid]; [done|]. case_decide; [done|].
  destruct parsed as [?|configs]; [done|].
  destruct Hfail as [Hfail|Hfail].
  - assert (watcher_looping s = false ∧ watcher_stopped s = false ∧
            main_at s ≠ AtRecvServer ∧ main_at s ≠ AtLock) as Hinv.
    { destruct ow, os; simpl in Hfail, Hstart; by simplify_eq/=. }
    clear Hstart. revert s Hinv Hexec.
    induction acts as [|a acts IH]; intros s Hinv Hexec; simpl in Hexec.
    + simplify_eq. tauto.
    + destruct (fire a s) as [s1|] eqn:Hf; [|done].
      eapply IH; [|exact Hexec]. by eapply fire_no_watcher.
  - assert (server_looping s = false ∧ server_stopped s = false ∧
            main_at s ≠ AtLock) as Hinv.
    { destruct ow, os; simpl in Hfail, Hstart; by simplify_eq/=. }
    clear Hstart. revert s Hinv Hexec.
    induction acts as [|a acts IH]; intros s Hinv Hexec; simpl in Hexec.
    + simplify_eq. tauto.
    + destruct (fire a s) as [s1|] eqn:Hf; [|done].
      eapply IH; [|exact Hexec]. by eapply fire_no_server.
Qed.

End handshake_facts.

(** ** Startup and the registry *)

Section more_registry.
Context `{ConfigImmutable}.

(** X13. Serving a connection never writes [services.list], allocates no
    service and changes no configuration, whatever the request. *)
Theorem serveConn_keeps_registry c w :
  services_list (serveConn c w).2 = services_list w ∧
  length (heap (serveConn c w).2) = length (heap w) ∧
  ∀ q, Config (heap (serveConn c w).2 !!! q) = Config (heap w !!! q).
Proof. apply frame_serveConn. Qed.


(** X15. Whatever events the watcher handles and whatever connections
    are served after startup, no service is registered twice and every
    registry entry is the address of an allocated service. *)
Theorem registry_entries_are_distinct_and_allocated configs steps :
  let w := run steps (booted configs) in
  NoDup (services_list w) ∧
  Forall (λ p, (p < length (heap w))%nat) (services_list w).
Proof. split; [apply run_NoDup|apply run_wf]. Qed.

End more_registry.

(** ** From startup to shutdown *)

Section shutdown_more.
Context `{Collaborators}.




End shutdown_more.

(** ** The further properties on the scenarios *)

Lemma running_wf : wf running.
Proof. unfold wf. vm_compute. repeat constructor. Qed.

Lemma running_sorted : sorted running.
Proof.
  unfold sorted, ascending.
  assert (services_list running = [0; 1; 2]%nat) as -> by by vm_compute.
  repeat constructor; by vm_compute.
Qed.

Lemma create_registers_and_starts_witness :
  let w' := (@on_event healthy disk (create "D") running).2 in
  services_list w' ≡ₚ services_list running ++ [length (heap running)] ∧
  sorted w'.
Proof.
  destruct (@create_registers_and_starts healthy
              (machine_ConfigImmutable _ _ _) disk (create "D") running
              eq_refl eq_refl) as (Hp & Hs & _).
  split; [exact Hp|exact Hs].
Defined.

Lemma delete_removes_first_entry_of_file_witness :
  let w' := (@on_event healthy disk (remove "A") running).2 in
  services_list w' = delete 1%nat (services_list running) ∧
  ∃ r, since running w' = [Debugf "removed service A"; CallStop 1%nat r].
Proof.
  destruct (@delete_removes_first_entry_of_file healthy disk (remove "A")
              running 1%nat 1%nat eq_refl eq_refl eq_refl eq_refl)
    as (Hl & _ & _ & _ & r & Hr).
  split; [exact Hl|]. exists r. exact Hr.
Defined.

Lemma event_for_unregistered_file_is_noop_witness :
  @on_event healthy disk (modify "Z") running = ((), running) ∧
  @on_event healthy disk (remove "Z") running = ((), running).
Proof.
  split.
  - exact (@event_for_unregistered_file_is_noop healthy disk (modify "Z")
             running eq_refl eq_refl eq_refl).
  - exact (@event_for_unregistered_file_is_noop healthy disk (remove "Z")
             running eq_refl eq_refl eq_refl).
Defined.

Lemma modify_reconfigures_first_entry_of_file_witness :
  let w' := (@on_event healthy edited (modify "A") running).2 in
  Config (heap w' !!! 1%nat) = cfg "A" 3 ∧
  services_list w' ≡ₚ services_list running ∧
  sorted w'.
Proof.
  assert (Config (heap running !!! 1%nat) ≠ edited "A") as Hne.
  { vm_compute. discriminate. }
  assert (1 < length (heap running))%nat as Hlt by (vm_compute; lia).
  destruct (@modify_reconfigures_first_entry_of_file healthy
              (machine_ConfigImmutable _ _ _) edited (modify "A") running
              1%nat 1%nat eq_refl eq_refl eq_refl eq_refl eq_refl eq_refl
              Hne Hlt) as (Hc & Hp & Hs & _).
  split; [exact Hc|]. split; [exact Hp|exact Hs].
Defined.

Lemma create_then_delete_restores_registry_witness :
  let w1 := (@on_event healthy disk (create "D") running).2 in
  let w2 := (@on_event healthy disk (remove "D") w1).2 in
  services_list w2 = services_list running.
Proof.
  destruct (@create_then_delete_restores_registry healthy
              (machine_ConfigImmutable _ _ _) disk disk
              (create "D") (remove "D") running
              eq_refl eq_refl eq_refl eq_refl eq_refl eq_refl eq_refl
              running_sorted running_wf) as (Hl & _).
  exact Hl.
Defined.

Lemma serveConn_changes_only_the_named_service_witness :
  heap (@serveConn healthy (request 7 ["stop"; "A"]) running).2 !!! 0%nat
  = heap running !!! 0%nat.
Proof.
  apply (@serveConn_changes_only_the_named_service healthy
           (request 7 ["stop"; "A"]) running 0%nat).
  intros a arg Heq. injection Heq as <- <-. vm_compute. discriminate.
Defined.

Lemma serveConn_keeps_registry_witness :
  services_list (@serveConn healthy (request 7 ["stop"; "A"]) running).2
  = services_list running.
Proof.
  destruct (@serveConn_keeps_registry healthy (machine_ConfigImmutable _ _ _)
              (request 7 ["stop"; "A"]) running) as (Hl & _).
  exact Hl.
Defined.

Lemma unknown_service_is_reported_witness :
  @serveConn healthy (request 7 ["start"; "nope"]) running =
  (Return None,
   {| heap := heap running; services_list := services_list running;
      trace := trace running ++
        [Response 7 respErr ("no service named nope" +:+ nl) None;
         Response 7 respEnd "" None] |}).
Proof.
  exact (@unknown_service_is_reported healthy (request 7 ["start"; "nope"])
           running "start" "nope" eq_refl eq_refl eq_refl).
Defined.

Lemma wrong_argument_count_is_reported_witness :
  @serveConn healthy (request 7 ["Stop"]) running =
  (Return None,
   {| heap := heap running; services_list := services_list running;
      trace := trace running ++
        [Response 7 respErr
           ("command stop requires exactly one argument" +:+ nl) None;
         Response 7 respEnd "" None] |}).
Proof.
  refine (@wrong_argument_count_is_reported healthy (request 7 ["Stop"])
            running "Stop" [] eq_refl eq_refl _).
  simpl. lia.
Defined.

Lemma start_command_witness :
  @serveConn healthy (request 7 ["start"; "A"]) A_stopped =
  (Return None,
   {| heap := <[1%nat := (@Start healthy (S (clock A_stopped))
                            (heap A_stopped !!! 1%nat)).1]>
                (heap A_stopped);
      services_list := services_list A_stopped;
      trace := trace A_stopped ++
        [Response 7 respOk ("starting A" +:+ nl) None;
         CallStart 1%nat None;
         Response 7 respOk ("started A" +:+ nl) None;
         Response 7 respEnd "" None] |}).
Proof.
  exact (@start_command healthy (request 7 ["start"; "A"]) A_stopped
           "start" "A" 1%nat eq_refl eq_refl eq_refl).
Defined.

Lemma stop_command_witness :
  @serveConn stubborn (request 7 ["stop"; "A"]) running =
  (Return None,
   {| heap := <[1%nat := (@Stop stubborn (S (clock running))
                            (heap running !!! 1%nat)).1]>
                (heap running);
      services_list := services_list running;
      trace := trace running ++
        [Response 7 respOk ("stopping A" +:+ nl) None;
         CallStop 1%nat (Some "still alive");
         Response 7 respErr ("error stopping A: still alive" +:+ nl) None;
         Response 7 respEnd "" None] |}).
Proof.
  exact (@stop_command stubborn (request 7 ["stop"; "A"]) running
           "stop" "A" 1%nat eq_refl eq_refl eq_refl).
Defined.

Lemma log_subscription_leaves_no_trace_on_services_witness :
  @serveConn healthy follow_A running =
  (Return None,
   {| heap := heap running; services_list := services_list running;
      trace := trace running ++
        [Response 9 respOk (@framed healthy ("out", [Byte.x68; Byte.x69]))
           None] |}).
Proof.
  refine (@log_subscription_leaves_no_trace_on_services healthy follow_A
            running "log" "A" 1%nat eq_refl eq_refl eq_refl eq_refl eq_refl
            _).
  repeat constructor. simpl. discriminate.
Defined.


Lemma registry_entries_are_distinct_and_allocated_witness :
  NoDup (services_list
           (@run healthy (Deliver <$> three_created)
              (@booted healthy [cfg "z" 5; cfg "y" 1]))).
Proof.
  destruct (@registry_entries_are_distinct_and_allocated healthy
              (machine_ConfigImmutable _ _ _) [cfg "z" 5; cfg "y" 1]
              (Deliver <$> three_created)) as (Hn & _).
  exact Hn.
Defined.


Lemma shutdown_hangs_without_watcher_or_server_witness :
  match @daemonMain_startup healthy (inr "0") (inr [cfg "z" 5; cfg "y" 1])
          "/etc/governator" (NewWatcher_fails "too many open files")
          Listening with
  | inr s =>
    match @exec healthy [Main; Main; Main; ServerQuit] s with
    | Some s' => main_at s' = AtRecvWatcher
    | None => False
    end
  | inl _ => False
  end.
Proof.
  destruct (@daemonMain_startup healthy (inr "0")
              (inr [cfg "z" 5; cfg "y" 1]) "/etc/governator"
              (NewWatcher_fails "too many open files") Listening)
    as [err|s] eqn:Hstart; [by vm_compute in Hstart|].
  destruct (@exec healthy [Main; Main; Main; ServerQuit] s) as [s'|] eqn:He.
  2:{ revert He. vm_compute in Hstart. simplify_eq. by vm_compute. }
  pose proof (@shutdown_hangs_without_watcher_or_server healthy
                (inr "0") (inr [cfg "z" 5; cfg "y" 1]) "/etc/governator"
                (NewWatcher_fails "too many open files") Listening s
                [Main; Main; Main; ServerQuit] s' Hstart
                (or_introl eq_refl) He) as Hnot.
  revert He Hnot. vm_compute in Hstart. simplify_eq. vm_compute.
  intros He _. by simplify_eq.
Defined.

